(** * ldeditor-lite: the buffered message-iteration pipeline

    A shallow embedding of [BufferedIterableSource] (the read-ahead
    producer/consumer engine) and of [CachedFilelike] (the retrying byte-range
    reader), with the properties of the specification that concern them.

    The two asynchronous tasks of [BufferedIterableSource] run on one event
    loop: a task runs without interruption from one [await] to the next.  The
    embedding keeps, for each task, the [await] it is suspended at, and one
    transition per resumption; the order of resumptions is left to the
    scheduler, so a property proved for every sequence of events holds for
    every interleaving. *)

From Stdlib Require Import ZArith List String Bool Lia Sorted Permutation.
From Stdlib.Strings Require Import Byte.
Import ListNotations.
Open Scope Z_scope.

(* ===================================================================== *)
(** ** Time *)
(* ===================================================================== *)

Module Rostime.

(** Modelled from the spec: the [Time] pair of sec and nsec of the rostime
    package, with the three operations the producer uses ([add], [compare],
    [clampTime]); the package is a dependency and not among the sources.
    Section 3 of the specification: nsec lies in [0, 1e9) and comparison is
    lexicographic.  [add] renormalises the nanoseconds by floor division. *)
Record Time : Type := mkTime { sec : Z; nsec : Z }.

Definition NSEC_PER_SEC : Z := 1000000000.

Definition fixTime (t : Time) : Time :=
  mkTime (sec t + nsec t / NSEC_PER_SEC) (nsec t mod NSEC_PER_SEC).

Definition add (l r : Time) : Time :=
  fixTime (mkTime (sec l + sec r) (nsec l + nsec r)).

(** [compare] answers a number whose sign orders the two times. *)
Definition compare (l r : Time) : Z :=
  let secDiff := sec l - sec r in
  if secDiff =? 0 then nsec l - nsec r else secDiff.

Definition clampTime (time start stop : Time) : Time :=
  if compare start time >? 0 then start
  else if compare stop time <? 0 then stop
  else time.

(** A time as the data model has it. *)
Definition wfTime (t : Time) : Prop :=
  0 <= sec t /\ 0 <= nsec t < NSEC_PER_SEC.

Definition wfTimeb (t : Time) : bool :=
  (0 <=? sec t) && (0 <=? nsec t) && (nsec t <? NSEC_PER_SEC).

Definition toNanoSec (t : Time) : Z := sec t * NSEC_PER_SEC + nsec t.

End Rostime.

(* ===================================================================== *)
(** ** BufferedIterableSource *)
(* ===================================================================== *)

Module Buffered.
Import Rostime.

(** *** Data *)

Record MessageEvent : Type := mkMessageEvent {
  topic : string;
  receiveTime : Time;
  message : Z;          (* the payload, opaque to the buffer *)
  sizeInBytes : Z
}.

(** Modelled from the spec: [IteratorResult], declared in IIterableSource
    (not among the sources); section 3 gives it the two variants the
    producer and the generator test for. *)
Inductive IteratorResult : Type :=
| MessageEventResult (msgEvent : MessageEvent)
| StampResult (stamp : Time).

(** The time both loops read off a result: [msgEvent.receiveTime] or [stamp]. *)
Definition resultTime (r : IteratorResult) : Time :=
  match r with
  | MessageEventResult m => receiveTime m
  | StampResult s => s
  end.

Record Initalization : Type := mkInitalization {
  init_start : Time;
  init_end : Time
}.

Record MessageIteratorArgs : Type := mkArgs {
  topics : list string;
  start : option Time
}.

(** The async iterator the wrapped source hands out: the results it will
    deliver, in order, and how it ends (normally, or by throwing). *)
Record SourceIterator : Type := mkSourceIterator {
  upcoming : list IteratorResult;
  failure : option string
}.

(** Modelled from the spec: [Condvar] of the den/async package (not among the
    sources), the wait/notify primitive of section 4.4.  [wait] suspends the
    caller until the next notification; [notifyAll] releases the tasks
    waiting at that moment and is not remembered. *)
Inductive Task : Type := ProducerTask | ConsumerTask.

Definition Task_eqb (a b : Task) : bool :=
  match a, b with
  | ProducerTask, ProducerTask | ConsumerTask, ConsumerTask => true
  | _, _ => false
  end.

Definition Condvar : Type := list Task.

Definition wait (t : Task) (cv : Condvar) : Condvar := cv ++ [t].
Definition notifyAll (cv : Condvar) : Condvar := [].
Definition waiting (t : Task) (cv : Condvar) : bool := existsb (Task_eqb t) cv.

(** Modelled from the spec: [VecQueue] of the den/collection package (not
    among the sources), the ordered queue of section 3. *)
Definition VecQueue : Type := list IteratorResult.

Definition enqueue (r : IteratorResult) (q : VecQueue) : VecQueue := q ++ [r].

Definition dequeue (q : VecQueue) : option (IteratorResult * VecQueue) :=
  match q with
  | [] => None
  | item :: rest => Some (item, rest)
  end.

Definition size (q : VecQueue) : nat := List.length q.

(** The promise of [startProducer]: the [await] the task is suspended at
    (with its local [readUntil], and the stamp it holds inside the inner
    loop), or how it settled. *)
Inductive ProducerState : Type :=
| AwaitSource (readUntil : Time)                (* for await (const result of sourceIterator) *)
| StampWait (stamp : Time) (readUntil : Time)   (* await writeSignal.wait(), inner while loop *)
| LoopWait (readUntil : Time)                   (* await writeSignal.wait(), end of the loop body *)
| Fulfilled
| Rejected (err : string).

(** Where [bufferedIterableGenerator] stands. *)
Inductive GeneratorState : Type :=
| NotStarted                       (* created, next() not called yet *)
| ReadWait                         (* await self.readSignal.wait() *)
| Yielded                          (* suspended at yield item *)
| Stopping                         (* finally: await self.stopProducer() *)
| Completed (err : option string).

Definition DEFAULT_READ_AHEAD_DURATION : Time := mkTime 10 0.

(** The fields of the class, then the two objects a session lives with (the
    wrapped source's iterator and the generator handed to the caller) and
    one history variable, [yielded]: the results the generator has yielded
    so far, in order. *)
Record State : Type := mkState {
  readDone : bool;
  aborted : bool;
  readSignal : Condvar;
  writeSignal : Condvar;
  cache : VecQueue;
  readHead : Time;
  producer : option ProducerState;
  initResult : option Initalization;
  readAheadDuration : Time;
  source : list string -> Time -> SourceIterator;
  sourceIterator : SourceIterator;
  generator : GeneratorState;
  genArgs : MessageIteratorArgs;
  yielded : list IteratorResult
}.

Definition set_readDone (v : bool) (st : State) : State :=
  mkState v (aborted st) (readSignal st) (writeSignal st) (cache st)
    (readHead st) (producer st) (initResult st) (readAheadDuration st) (source st)
    (sourceIterator st) (generator st) (genArgs st) (yielded st).

Definition set_aborted (v : bool) (st : State) : State :=
  mkState (readDone st) v (readSignal st) (writeSignal st) (cache st)
    (readHead st) (producer st) (initResult st) (readAheadDuration st) (source st)
    (sourceIterator st) (generator st) (genArgs st) (yielded st).

Definition set_readSignal (v : Condvar) (st : State) : State :=
  mkState (readDone st) (aborted st) v (writeSignal st) (cache st)
    (readHead st) (producer st) (initResult st) (readAheadDuration st) (source st)
    (sourceIterator st) (generator st) (genArgs st) (yielded st).

Definition set_writeSignal (v : Condvar) (st : State) : State :=
  mkState (readDone st) (aborted st) (readSignal st) v (cache st)
    (readHead st) (producer st) (initResult st) (readAheadDuration st) (source st)
    (sourceIterator st) (generator st) (genArgs st) (yielded st).

Definition set_cache (v : VecQueue) (st : State) : State :=
  mkState (readDone st) (aborted st) (readSignal st) (writeSignal st) v
    (readHead st) (producer st) (initResult st) (readAheadDuration st) (source st)
    (sourceIterator st) (generator st) (genArgs st) (yielded st).

Definition set_readHead (v : Time) (st : State) : State :=
  mkState (readDone st) (aborted st) (readSignal st) (writeSignal st) (cache st)
    v (producer st) (initResult st) (readAheadDuration st) (source st)
    (sourceIterator st) (generator st) (genArgs st) (yielded st).

Definition set_producer (v : option ProducerState) (st : State) : State :=
  mkState (readDone st) (aborted st) (readSignal st) (writeSignal st) (cache st)
    (readHead st) v (initResult st) (readAheadDuration st) (source st)
    (sourceIterator st) (generator st) (genArgs st) (yielded st).

Definition set_initResult (v : option Initalization) (st : State) : State :=
  mkState (readDone st) (aborted st) (readSignal st) (writeSignal st) (cache st)
    (readHead st) (producer st) v (readAheadDuration st) (source st)
    (sourceIterator st) (generator st) (genArgs st) (yielded st).

Definition set_sourceIterator (v : SourceIterator) (st : State) : State :=
  mkState (readDone st) (aborted st) (readSignal st) (writeSignal st) (cache st)
    (readHead st) (producer st) (initResult st) (readAheadDuration st) (source st)
    v (generator st) (genArgs st) (yielded st).

Definition set_generator (v : GeneratorState) (st : State) : State :=
  mkState (readDone st) (aborted st) (readSignal st) (writeSignal st) (cache st)
    (readHead st) (producer st) (initResult st) (readAheadDuration st) (source st)
    (sourceIterator st) v (genArgs st) (yielded st).

Definition set_genArgs (v : MessageIteratorArgs) (st : State) : State :=
  mkState (readDone st) (aborted st) (readSignal st) (writeSignal st) (cache st)
    (readHead st) (producer st) (initResult st) (readAheadDuration st) (source st)
    (sourceIterator st) (generator st) v (yielded st).

Definition set_yielded (v : list IteratorResult) (st : State) : State :=
  mkState (readDone st) (aborted st) (readSignal st) (writeSignal st) (cache st)
    (readHead st) (producer st) (initResult st) (readAheadDuration st) (source st)
    (sourceIterator st) (generator st) (genArgs st) v.

(** *** The class *)

Definition constructor (src : list string -> Time -> SourceIterator)
    (opt : option Time) : State :=
  mkState false false [] [] [] (mkTime 0 0) None None
    (match opt with Some d => d | None => DEFAULT_READ_AHEAD_DURATION end)
    src (mkSourceIterator [] None) (Completed None) (mkArgs [] None) [].

(** [initialize]: the wrapped source answers [r]. *)
Definition initialize (r : Initalization) (st : State) : State :=
  set_initResult (Some r) st.

(** [terminate]: the queue is cleared; terminating the wrapped source is the
    source's business. *)
Definition terminate (st : State) : State := set_cache [] st.

(** The [finally] block of [startProducer]. *)
Definition producerFinally (st : State) : State :=
  set_readDone true (set_readSignal (notifyAll (readSignal st)) st).

Definition settle (p : ProducerState) (st : State) : State :=
  set_producer (Some p) st.

(** The inner [while] of the stamp branch, entered at its test. *)
Definition stampLoop (s readUntil : Time) (st : State) : State :=
  if compare s readUntil >=? 0 then
    let st1 := set_cache (enqueue (StampResult s) (cache st)) st in
    let st2 := set_readSignal (notifyAll (readSignal st1)) st1 in
    let st3 := set_writeSignal (wait ProducerTask (writeSignal st2)) st2 in
    settle (StampWait s readUntil) st3
  else
    settle (AwaitSource readUntil) st.

(** The loop body from [this.cache.enqueue(result)] on. *)
Definition enqueueResult (result : IteratorResult) (readUntil : Time)
    (st : State) : State :=
  let st1 := set_cache (enqueue result (cache st)) st in
  let st2 := set_readSignal (notifyAll (readSignal st1)) st1 in
  let again := settle (AwaitSource readUntil) st2 in
  let block :=
    if Nat.eqb (size (cache st2)) 0 then again
    else settle (LoopWait readUntil)
           (set_writeSignal (wait ProducerTask (writeSignal st2)) st2) in
  match result with
  | MessageEventResult m =>
      if compare (receiveTime m) readUntil <=? 0 then again else block
  | StampResult _ => block
  end.

(** One turn of the [for await] body, for the result just received. *)
Definition producerBody (result : IteratorResult) (st : State) : State :=
  if aborted st then settle Fulfilled (producerFinally st)
  else
    let readUntil := add (readHead st) (readAheadDuration st) in
    match result with
    | StampResult s =>
        if compare s readUntil >=? 0 then stampLoop s readUntil st
        else enqueueResult result readUntil st
    | MessageEventResult _ => enqueueResult result readUntil st
    end.

(** [startProducer] up to its first [await]. *)
Definition startProducer (args : MessageIteratorArgs) (st : State)
    : State * ProducerState :=
  match initResult st with
  | None => (st, Rejected "Invariant: uninitialized")
  | Some init =>
      if Nat.eqb (List.length (topics args)) 0 then (set_readDone true st, Fulfilled)
      else
        let st1 := set_cache [] st in
        let it := source st1 (topics args) (readHead st1) in
        let readUntil :=
          clampTime (add (readHead st1) (readAheadDuration st1))
                    (init_start init) (init_end init) in
        (set_sourceIterator it st1, AwaitSource readUntil)
  end.

(** The producer resumes: the source delivers, or a notification of
    [writeSignal] has released it. *)
Definition producerStep (st : State) : option State :=
  match producer st with
  | Some (AwaitSource _) =>
      let it := sourceIterator st in
      match upcoming it with
      | result :: rest =>
          Some (producerBody result
                  (set_sourceIterator (mkSourceIterator rest (failure it)) st))
      | [] =>
          match failure it with
          | None => Some (settle Fulfilled (producerFinally st))
          | Some err => Some (settle (Rejected err) (producerFinally st))
          end
      end
  | Some (StampWait s _) =>
      if waiting ProducerTask (writeSignal st) then None
      else Some (stampLoop s (add (readHead st) (readAheadDuration st)) st)
  | Some (LoopWait readUntil) =>
      if waiting ProducerTask (writeSignal st) then None
      else Some (settle (AwaitSource readUntil) st)
  | _ => None
  end.

(** [stopProducer] up to [await this.producer]. *)
Definition stopProducer (st : State) : State :=
  set_writeSignal (notifyAll (writeSignal st)) (set_aborted true st).

(** [stopProducer] is public: called from outside the generator, it does
    [stopProducer] above at once, and [stopProducerResumed] is what follows
    its [await this.producer]: it goes on waiting while the producer runs,
    rethrows the producer's rejection, and otherwise clears the stored
    promise. *)
Inductive Resumption : Type :=
| StillWaiting
| Rethrows (err : string)
| Resolves (st : State).

Definition stopProducerResumed (st : State) : Resumption :=
  match producer st with
  | Some Fulfilled | None => Resolves (set_producer None st)
  | Some (Rejected err) => Rethrows err
  | Some _ => StillWaiting
  end.

(** The generator enters its [finally] block. *)
Definition generatorFinally (st : State) : State :=
  set_generator Stopping (stopProducer st).

(** The [for (;;)] of the generator, from its top to the next suspension. *)
Definition generatorLoop (st : State) : State :=
  match dequeue (cache st) with
  | None =>
      if readDone st then generatorFinally st
      else set_generator ReadWait
             (set_readSignal (wait ConsumerTask (readSignal st)) st)
  | Some (item, rest) =>
      let st1 := set_cache rest st in
      let st2 := set_readHead (resultTime item) st1 in
      let st3 := set_writeSignal (notifyAll (writeSignal st2)) st2 in
      set_generator Yielded (set_yielded (yielded st3 ++ [item]) st3)
  end.

(** The caller asks for the next result. *)
Definition callNext (st : State) : option State :=
  match generator st with
  | NotStarted =>
      if Nat.eqb (List.length (topics (genArgs st))) 0
      then Some (generatorFinally st)
      else Some (generatorLoop st)
  | Yielded => Some (generatorLoop st)
  | _ => None
  end.

(** The caller ends the iteration ([return()], or leaving a [for await]). *)
Definition callReturn (st : State) : option State :=
  match generator st with
  | NotStarted => Some (set_generator (Completed None) st)
  | Yielded => Some (generatorFinally st)
  | _ => None
  end.

(** The generator resumes from an [await]: released from [readSignal], or
    the producer's promise has settled under [stopProducer]. *)
Definition generatorStep (st : State) : option State :=
  match generator st with
  | ReadWait =>
      if waiting ConsumerTask (readSignal st) then None
      else Some (generatorLoop st)
  | Stopping =>
      match producer st with
      | Some Fulfilled | None =>
          Some (set_generator (Completed None) (set_producer None st))
      | Some (Rejected err) => Some (set_generator (Completed (Some err)) st)
      | Some _ => None
      end
  | _ => None
  end.

Inductive Outcome : Type :=
| Returns (st : State)
| Throws (msg : string).

Definition messageIterator (args : MessageIteratorArgs) (st : State) : Outcome :=
  match initResult st with
  | None => Throws "Invariant: uninitialized"
  | Some init =>
      match producer st with
      | Some _ =>
          Throws "Invariant: BufferedIterableSource allows only one messageIterator"
      | None =>
          let start := match start args with
                       | Some t => t
                       | None => init_start init
                       end in
          let st1 := set_readHead start st in
          let st2 := set_readDone false (set_aborted false st1) in
          let (st3, p) := startProducer args st2 in
          Returns (set_yielded []
                     (set_genArgs args
                        (set_generator NotStarted (set_producer (Some p) st3))))
      end
  end.

(** *** Schedules *)

(** The turns of one session: the two tasks resuming, and the caller driving
    the generator.  The other public methods are functions of their own
    ([stopProducer] with [stopProducerResumed], [terminate]); a property
    stated over these events speaks of a session nobody interferes with. *)
Inductive Event : Type :=
| ProducerRuns      (* the producer task is resumed *)
| GeneratorRuns     (* the generator is resumed from an await *)
| CallNext          (* the caller calls next() *)
| CallReturn.       (* the caller calls return() *)

Definition step (e : Event) (st : State) : option State :=
  match e with
  | ProducerRuns => producerStep st
  | GeneratorRuns => generatorStep st
  | CallNext => callNext st
  | CallReturn => callReturn st
  end.

Fixpoint run (evs : list Event) (st : State) : option State :=
  match evs with
  | [] => Some st
  | e :: evs' =>
      match step e st with
      | Some st' => run evs' st'
      | None => None
      end
  end.

(** *** Notions the properties are stated with *)

(** Non-decreasing time between two results. *)
Definition timeLe (a b : IteratorResult) : Prop :=
  compare (resultTime a) (resultTime b) <= 0.

Definition running (p : ProducerState) : bool :=
  match p with
  | AwaitSource _ | StampWait _ _ | LoopWait _ => true
  | Fulfilled | Rejected _ => false
  end.

(** The producer task is between two of its [await]s. *)
Definition producerRunning (st : State) : bool :=
  match producer st with
  | Some p => running p
  | None => false
  end.

(** The producer's promise has settled (it is still held in [producer]). *)
Definition producerSettled (st : State) : bool :=
  match producer st with
  | Some p => negb (running p)
  | None => false
  end.

(** The stamp the producer holds while it is inside the inner loop. *)
Definition held (st : State) : list IteratorResult :=
  match producer st with
  | Some (StampWait s _) => [StampResult s]
  | _ => []
  end.

(** Everything still on its way to the caller, in order. *)
Definition pendingResults (st : State) : list IteratorResult :=
  cache st ++ held st ++ upcoming (sourceIterator st).

(** The read-ahead horizon, and the cached results past it. *)
Definition horizon (st : State) : Time :=
  add (readHead st) (readAheadDuration st).

Definition pastHorizon (st : State) (r : IteratorResult) : bool :=
  compare (resultTime r) (horizon st) >? 0.

Definition ahead (st : State) : nat :=
  List.length (filter (pastHorizon st) (cache st)).

(** Whether the producer can enqueue again before anyone notifies it. *)
Definition credit (st : State) : nat :=
  match producer st with
  | Some (AwaitSource _) => 1
  | Some (StampWait _ _) | Some (LoopWait _) =>
      if waiting ProducerTask (writeSignal st) then 0 else 1
  | _ => 0
  end%nat.

(** No session is open and nobody waits on either signal. *)
Definition idle (st : State) : Prop :=
  producer st = None /\ readSignal st = [] /\ writeSignal st = [].

Definition Reachable (st0 st : State) : Prop :=
  exists evs, run evs st0 = Some st.

(** [stutter emitted out]: [out] is [emitted] with every result in its
    place, a stamp possibly several times in a row. *)
Inductive stutter : list IteratorResult -> list IteratorResult -> Prop :=
| stutter_nil : stutter [] []
| stutter_next r emitted out :
    stutter emitted out -> stutter (r :: emitted) (r :: out)
| stutter_again s emitted out :
    stutter (StampResult s :: emitted) out ->
    stutter (StampResult s :: emitted) (StampResult s :: out).

(** The start time of a session: [args.start ?? this.initResult.start]. *)
Definition startOf (args : MessageIteratorArgs) (st : State) : Time :=
  match start args, initResult st with
  | Some t, _ => t
  | None, Some init => init_start init
  | None, None => readHead st
  end.

(** The read-ahead bound with one result of slack: every cached result but
    the latest is within the horizon. *)
Definition oneItemSlack (st : State) : Prop :=
  forall r, In r (removelast (cache st)) ->
            compare (resultTime r) (horizon st) <= 0.

(** One turn of the stamp cycle, from [st] to [st']: the stamp enqueued,
    [readSignal] notified, the producer blocked on [writeSignal] with
    [readUntil] recomputed from the read head. *)
Definition enqueuedAndBlocked (s : Time) (st st' : State) : Prop :=
  cache st' = cache st ++ [StampResult s] /\
  readSignal st' = [] /\
  waiting ProducerTask (writeSignal st') = true /\
  producer st' = Some (StampWait s (horizon st)) /\
  readHead st' = readHead st /\
  yielded st' = yielded st.

(** [stopProducer] has been called while the producer holds a stamp that is
    still at or past the horizon. *)
Definition stuckInStampLoop (st : State) : Prop :=
  aborted st = true /\ generator st = Stopping /\
  exists s ru, producer st = Some (StampWait s ru) /\
               compare s (horizon st) >= 0.

(** *** Invariants of a session *)

(** How a transition moves the results: nothing moves; the held stamp is
    enqueued once more; a result is dropped; or the eldest goes to the caller. *)
Inductive moves (st st' : State) : Prop :=
| moves_none :
    yielded st' = yielded st -> readHead st' = readHead st ->
    pendingResults st' = pendingResults st -> moves st st'
| moves_repeat l1 s l2 :
    yielded st' = yielded st -> readHead st' = readHead st ->
    pendingResults st = l1 ++ StampResult s :: l2 ->
    pendingResults st' = l1 ++ StampResult s :: StampResult s :: l2 ->
    moves st st'
| moves_drop l1 x l2 :
    yielded st' = yielded st -> readHead st' = readHead st ->
    pendingResults st = l1 ++ x :: l2 ->
    pendingResults st' = l1 ++ l2 ->
    moves st st'
| moves_yield x rest :
    pendingResults st = x :: rest -> pendingResults st' = rest ->
    yielded st' = yielded st ++ [x] -> readHead st' = resultTime x ->
    moves st st'.

(** Yielded and pending results together are in time order. *)
Definition ordered (st : State) : Prop :=
  StronglySorted timeLe (yielded st ++ pendingResults st).

(** What has reached the queue is a stuttering of what the source emitted,
    and the producer asks the source again only while nothing was dropped. *)
Definition inOrderOf (emits : list IteratorResult) (st : State) : Prop :=
  exists taken dropped,
    emits = taken ++ dropped ++ upcoming (sourceIterator st) /\
    stutter taken (yielded st ++ cache st) /\
    (producerRunning st = true -> dropped = []) /\
    (forall s ru, producer st = Some (StampWait s ru) ->
                  exists pre, taken = pre ++ [StampResult s]).

(** With no topic the generator never yields. *)
Definition silentSession (st : State) : Prop :=
  topics (genArgs st) = [] /\ yielded st = [] /\
  generator st <> Yielded /\ generator st <> ReadWait.

(** The read head is no later than anything still on its way, and every
    time involved is a time of the data model. *)
Definition tidy (st : State) : Prop :=
  ordered st /\
  wfTime (readHead st) /\ wfTime (readAheadDuration st) /\
  Forall (fun r => wfTime (resultTime r) /\
                   compare (readHead st) (resultTime r) <= 0)
         (pendingResults st).

(** While the session is not aborted, the cached results past the horizon
    and the producer's credit stay within one plus the dequeued results. *)
Definition budget (st : State) : Prop :=
  aborted st = false ->
  (ahead st + credit st <= 1 + List.length (yielded st))%nat.

(** Once the producer's promise has settled, [readDone] is set and nobody
    is left waiting on [readSignal]. *)
Definition completionSeen (st : State) : Prop :=
  producerSettled st = true -> readDone st = true /\ readSignal st = [].


(** *** Sample sessions *)

Definition msgAt (t : Z) : IteratorResult :=
  MessageEventResult (mkMessageEvent "/a" (mkTime t 0) t 8).

Definition stampAt (t : Z) : IteratorResult := StampResult (mkTime t 0).

Definition sampleArgs : MessageIteratorArgs :=
  mkArgs ["/a"%string] (Some (mkTime 0 0)).

(** An initialised instance over a source running from 0 s to 200 s that
    emits [results] and then ends, or throws [fails]; the read-ahead is the
    default, 10 s. *)
Definition sampleInstance (results : list IteratorResult)
    (fails : option string) : State :=
  initialize (mkInitalization (mkTime 0 0) (mkTime 200 0))
    (constructor (fun _ _ => mkSourceIterator results fails) None).

(** The state [messageIterator] leaves, and the state a schedule leads to. *)
Definition sessionOf (args : MessageIteratorArgs) (st : State) : State :=
  match messageIterator args st with
  | Returns st0 => st0
  | Throws _ => st
  end.

Definition after (evs : list Event) (st : State) : State :=
  match run evs st with
  | Some st' => st'
  | None => st
  end.

(** A schedule over the source [1 s, 2 s, stamp 100 s]: the producer reads
    everything it may, then each dequeue wakes it once. *)
Definition gapSchedule : list Event :=
  [ProducerRuns; ProducerRuns; ProducerRuns;
   CallNext; ProducerRuns; CallNext; ProducerRuns;
   CallNext; ProducerRuns; ProducerRuns;
   CallNext; CallNext; CallNext; GeneratorRuns].


(** *** Further notions and invariants *)

(** A session with no topic: its producer has returned at once and its
    generator never reads, so the queue stays as it was found. *)
Definition dormant (found : VecQueue) (st : State) : Prop :=
  silentSession st /\ cache st = found /\ producerRunning st = false.

(** The producer is at one of its two waits on [writeSignal]. *)
Definition atWriteWait (st : State) : bool :=
  match producer st with
  | Some (LoopWait _) | Some (StampWait _ _) => true
  | _ => false
  end.

Definition completed (st : State) : bool :=
  match generator st with
  | Completed _ => true
  | _ => false
  end.

(** Nobody sleeps through a notification: a producer waiting on
    [writeSignal] has left something in the queue, and a generator waiting on
    [readSignal] has found the queue empty and the producer still at work. *)
Definition wakeful (st : State) : Prop :=
  (waiting ProducerTask (writeSignal st) = true ->
   cache st <> [] /\ atWriteWait st = true) /\
  (waiting ConsumerTask (readSignal st) = true ->
   cache st = [] /\ readDone st = false /\ generator st = ReadWait) /\
  (producerRunning st = false -> completed st = false -> readDone st = true) /\
  (producer st = None -> completed st = true) /\
  (generator st = Stopping -> aborted st = true).

(** What a session that is never cut short keeps: once the producer is done
    without an abort, everything the source emitted is yielded or queued;
    once the generator has stopped, everything was yielded. *)
Definition thorough (emits : list IteratorResult) (st : State) : Prop :=
  inOrderOf emits st /\
  topics (genArgs st) <> [] /\
  (readDone st = true -> producerRunning st = false) /\
  (aborted st = false -> readDone st = true ->
   stutter emits (yielded st ++ cache st)) /\
  (aborted st = true -> stutter emits (yielded st)) /\
  (generator st = Stopping \/ completed st = true <-> aborted st = true).

(** The producer is inside the inner loop with a stamp that its next test
    will find at or past the horizon. *)
Definition holdsStampPastHorizon (st : State) : bool :=
  match producer st with
  | Some (StampWait s _) => compare s (horizon st) >=? 0
  | _ => false
  end.

(** A rejected producer is the source's failure, met once its results were
    all taken; the generator's error is the producer's. *)
Definition failsWith (f : option string) (st : State) : Prop :=
  (forall err, producer st = Some (Rejected err) ->
               f = Some err /\ upcoming (sourceIterator st) = []) /\
  (forall err, generator st = Completed (Some err) ->
               producer st = Some (Rejected err)) /\
  (producerRunning st = true -> failure (sourceIterator st) = f).

(** Over the source [1 s, 50 s, 60 s]: the producer has taken the first two
    results and sleeps, the second being past the horizon. *)
Definition farInstance : State :=
  sampleInstance [msgAt 1; msgAt 50; msgAt 60] None.

Definition farSession : State := sessionOf sampleArgs farInstance.

End Buffered.

(* ===================================================================== *)
(** ** CachedFilelike *)
(* ===================================================================== *)

Module Filelike.

(** *** Data *)

Record Range : Type := mkRange { range_start : Z; range_end : Z }.

(** A number that may be [Infinity] (the default of [cacheSizeInBytes]). *)
Inductive Size : Type :=
| Finite (n : Z)
| Infinity.

(** [n > s], [n >= s] and the like against such a number. *)
Definition exceeds (n : Z) (s : Size) : bool :=
  match s with
  | Finite c => n >? c
  | Infinity => false
  end.

Definition covers (s : Size) (n : Z) : bool :=
  match s with
  | Finite c => c >=? n
  | Infinity => true
  end.

Definition Bytes : Type := list byte.

Definition CACHE_BLOCK_SIZE : Z := 1024 * 1024 * 10.
Definition CLOSE_ENOUGH_BYTES_TO_NOT_START_NEW_CONNECTION : Z := 1024 * 1024 * 5.

(** [Math.ceil(a / b)] for whole [a] and positive [b]. *)
Definition ceilDiv (a b : Z) : Z := - ((- a) / b).

(** The options [new VirtualLRUBuffer(...)] is given. *)
Record VirtualLRUBufferOptions : Type := mkOptions {
  size : Z;
  blockSize : option Z;
  numberOfBlocks : option Z
}.

(** The options of [getNewConnection]. *)
Record NewConnectionOptions : Type := mkNewConnectionOptions {
  currentRemainingRange : option Range;
  readRequestRange : option Range;
  downloadedRanges : list Range;
  lastResolvedCallbackEnd : option Z;
  maxRequestSize : Size;
  fileSize : Z;
  continueDownloadingThreshold : Z
}.

(** Modelled from the spec: [VirtualLRUBuffer] and [getNewConnection], two
    modules of the repository that are not among the sources.  Section 4.1
    gives the buffer its operations ([hasData], [getRangesWithData],
    [copyFrom], [slice], which touches the blocks it reads); section 4.2
    says what [getNewConnection] decides.  Nothing below depends on how they
    do it, so they stay parameters. *)
Class Collaborators : Type := {
  VirtualLRUBuffer : Type;
  newVirtualLRUBuffer : VirtualLRUBufferOptions -> VirtualLRUBuffer;
  hasData : VirtualLRUBuffer -> Z -> Z -> bool;
  getRangesWithData : VirtualLRUBuffer -> list Range;
  copyFrom : VirtualLRUBuffer -> Bytes -> Z -> VirtualLRUBuffer;
  slice : VirtualLRUBuffer -> Z -> Z -> Bytes * VirtualLRUBuffer;
  getNewConnection : NewConnectionOptions -> option Range
}.

Inductive Error : Type :=
| InvalidInput                                   (* CachedFilelike#read invalid input *)
| MoreThanCacheSize (length : Z) (cache : Size)  (* Requested more data than cache size *)
| ReadPastSize                                   (* CachedFilelike#read past size *)
| NotOpened                                      (* CachedFilelike has not been opened *)
| External (msg : string).                       (* an error of the stream or of the reader *)

(** A pending read: its range, and [request], which stands for the
    [resolve]/[reject] pair of its promise. *)
Record ReadRequest : Type := mkReadRequest {
  range : Range;
  request : nat;
  requestTime : Z
}.

(** The current connection, with the two variables its handlers close over
    ([range], here [target], and [bytesRead]). *)
Record Connection : Type := mkConnection {
  stream : nat;
  remainingRange : Range;
  target : Range;
  bytesRead : Z
}.

(** What the object does to the outside world, in order. *)
Inductive Effect : Type :=
| OpenCalled                                 (* fileReader.open() *)
| Fetched (stream : nat) (offset length : Z) (* fileReader.fetch(offset, length) *)
| Destroyed (stream : nat)                   (* stream.destroy() *)
| Resolved (request : nat) (data : Bytes)    (* resolve(buffer) *)
| RejectedWith (request : nat) (err : Error) (* reject(err) *)
| Reconnecting (flag : bool).                (* keepReconnectingCallback(flag) *)

(** *** Reading a history *)

(** The streams a history has fetched, and the flags it has told the
    keep-reconnecting callback. *)
Definition fetchedStreams (effs : list Effect) : list nat :=
  flat_map (fun e => match e with Fetched s _ _ => [s] | _ => [] end) effs.

(** The streams a history has destroyed. *)
Definition destroyedStreams (effs : list Effect) : list nat :=
  flat_map (fun e => match e with Destroyed s => [s] | _ => [] end) effs.

Definition reconnectFlags (effs : list Effect) : list bool :=
  flat_map (fun e => match e with Reconnecting b => [b] | _ => [] end) effs.

(** The requests a history has resolved. *)
Definition resolvedRequests (effs : list Effect) : list nat :=
  flat_map (fun e => match e with Resolved id _ => [id] | _ => [] end) effs.

(** [l] alternates, starting with [b]. *)
Fixpoint alternates (b : bool) (l : list bool) : Prop :=
  match l with
  | [] => True
  | x :: rest => x = b /\ alternates (negb b) rest
  end.

Section Reader.
Context {collaborators : Collaborators}.

(** The fields of the class; [nextStream] numbers the streams [fetch]
    returns and [effects] is the history of calls to the outside. *)
Record CachedFilelike : Type := mkCachedFilelike {
  _cacheSizeInBytes : Size;
  _fileSize : option Z;
  _virtualBuffer : VirtualLRUBuffer;
  _closed : bool;
  _keepReconnectingCallback : bool;
  _currentConnection : option Connection;
  _readRequests : list ReadRequest;
  _lastResolvedCallbackEnd : option Z;
  _lastErrorTime : option Z;
  nextStream : nat;
  effects : list Effect
}.

Definition set_fileSize (v : option Z) (st : CachedFilelike) : CachedFilelike :=
  mkCachedFilelike (_cacheSizeInBytes st) v (_virtualBuffer st) (_closed st)
    (_keepReconnectingCallback st) (_currentConnection st) (_readRequests st)
    (_lastResolvedCallbackEnd st) (_lastErrorTime st) (nextStream st) (effects st).

Definition set_virtualBuffer (v : VirtualLRUBuffer) (st : CachedFilelike)
    : CachedFilelike :=
  mkCachedFilelike (_cacheSizeInBytes st) (_fileSize st) v (_closed st)
    (_keepReconnectingCallback st) (_currentConnection st) (_readRequests st)
    (_lastResolvedCallbackEnd st) (_lastErrorTime st) (nextStream st) (effects st).

Definition set_closed (v : bool) (st : CachedFilelike) : CachedFilelike :=
  mkCachedFilelike (_cacheSizeInBytes st) (_fileSize st) (_virtualBuffer st) v
    (_keepReconnectingCallback st) (_currentConnection st) (_readRequests st)
    (_lastResolvedCallbackEnd st) (_lastErrorTime st) (nextStream st) (effects st).

Definition set_currentConnection (v : option Connection) (st : CachedFilelike)
    : CachedFilelike :=
  mkCachedFilelike (_cacheSizeInBytes st) (_fileSize st) (_virtualBuffer st)
    (_closed st) (_keepReconnectingCallback st) v (_readRequests st)
    (_lastResolvedCallbackEnd st) (_lastErrorTime st) (nextStream st) (effects st).

Definition set_readRequests (v : list ReadRequest) (st : CachedFilelike)
    : CachedFilelike :=
  mkCachedFilelike (_cacheSizeInBytes st) (_fileSize st) (_virtualBuffer st)
    (_closed st) (_keepReconnectingCallback st) (_currentConnection st) v
    (_lastResolvedCallbackEnd st) (_lastErrorTime st) (nextStream st) (effects st).

Definition set_lastResolvedCallbackEnd (v : option Z) (st : CachedFilelike)
    : CachedFilelike :=
  mkCachedFilelike (_cacheSizeInBytes st) (_fileSize st) (_virtualBuffer st)
    (_closed st) (_keepReconnectingCallback st) (_currentConnection st)
    (_readRequests st) v (_lastErrorTime st) (nextStream st) (effects st).

Definition set_lastErrorTime (v : option Z) (st : CachedFilelike) : CachedFilelike :=
  mkCachedFilelike (_cacheSizeInBytes st) (_fileSize st) (_virtualBuffer st)
    (_closed st) (_keepReconnectingCallback st) (_currentConnection st)
    (_readRequests st) (_lastResolvedCallbackEnd st) v (nextStream st) (effects st).

Definition set_nextStream (v : nat) (st : CachedFilelike) : CachedFilelike :=
  mkCachedFilelike (_cacheSizeInBytes st) (_fileSize st) (_virtualBuffer st)
    (_closed st) (_keepReconnectingCallback st) (_currentConnection st)
    (_readRequests st) (_lastResolvedCallbackEnd st) (_lastErrorTime st) v (effects st).

(** Records one more call to the outside. *)
Definition emit (e : list Effect) (st : CachedFilelike) : CachedFilelike :=
  mkCachedFilelike (_cacheSizeInBytes st) (_fileSize st) (_virtualBuffer st)
    (_closed st) (_keepReconnectingCallback st) (_currentConnection st)
    (_readRequests st) (_lastResolvedCallbackEnd st) (_lastErrorTime st)
    (nextStream st) (effects st ++ e).

(** A handler ends, or throws. *)
Inductive Result : Type :=
| Done (st : CachedFilelike)
| Threw (err : Error) (st : CachedFilelike).

(** *** The class *)

Definition constructor (cacheSizeInBytes : option Size)
    (keepReconnectingCallback : bool) : CachedFilelike :=
  mkCachedFilelike
    (match cacheSizeInBytes with Some c => c | None => Infinity end)
    None (newVirtualLRUBuffer (mkOptions 0 None None)) false
    keepReconnectingCallback None [] None None 0%nat [].

(** [open]: what runs before [await this._fileReader.open()] answers whether
    the reader is asked at all; [openResumed] runs once it has answered. *)
Definition openCalled (st : CachedFilelike) : CachedFilelike :=
  match _fileSize st with
  | Some _ => st
  | None => emit [OpenCalled] st
  end.

Definition openResumed (fileSize : Z) (st : CachedFilelike) : CachedFilelike :=
  let st1 := set_fileSize (Some fileSize) st in
  if covers (_cacheSizeInBytes st1) fileSize then
    set_virtualBuffer (newVirtualLRUBuffer (mkOptions fileSize None None)) st1
  else
    match _cacheSizeInBytes st1 with
    | Finite c =>
        set_virtualBuffer
          (newVirtualLRUBuffer
             (mkOptions fileSize (Some CACHE_BLOCK_SIZE)
                        (Some (ceilDiv c CACHE_BLOCK_SIZE + 2))))
          st1
    | Infinity => st1
    end.

(** [open] as a whole, the reader answering [fileSize]. *)
Definition open (fileSize : Z) (st : CachedFilelike) : CachedFilelike :=
  match _fileSize st with
  | Some _ => st
  | None => openResumed fileSize (openCalled st)
  end.

Definition sizeOf (st : CachedFilelike) : Error + Z :=
  match _fileSize st with
  | None => inl NotOpened
  | Some n => inr n
  end.

(** What [read] hands back at once. *)
Inductive ReadResult : Type :=
| ReadThrows (err : Error)
| ReadResolves (data : Bytes)      (* Promise.resolve(new Uint8Array()) *)
| ReadPending (range : Range).     (* a promise that waits for this.open() *)

Definition read (offset length : Z) (st : CachedFilelike)
    : CachedFilelike * ReadResult :=
  if length =? 0 then (st, ReadResolves [])
  else
    let range := mkRange offset (offset + length) in
    if (offset <? 0) || (length <? 0) then (st, ReadThrows InvalidInput)
    else if exceeds length (_cacheSizeInBytes st)
    then (st, ReadThrows (MoreThanCacheSize length (_cacheSizeInBytes st)))
    else (openCalled st, ReadPending range).

(** Replace the current connection with a new one. *)
Definition _setConnection (range : Range) (st : CachedFilelike) : CachedFilelike :=
  let st1 :=
    match _currentConnection st with
    | Some c => emit [Destroyed (stream c)] st
    | None => st
    end in
  let id := nextStream st1 in
  let st2 :=
    emit [Fetched id (range_start range) (range_end range - range_start range)] st1 in
  set_nextStream (S id)
    (set_currentConnection (Some (mkConnection id range range 0)) st2).

(** The [filter] over the read requests: those the buffer can serve are
    resolved, in order, and leave the list. *)
Fixpoint resolveRequests (buffer : VirtualLRUBuffer) (requests : list ReadRequest)
    (lastEnd : option Z)
    : list ReadRequest * list Effect * option Z * VirtualLRUBuffer :=
  match requests with
  | [] => ([], [], lastEnd, buffer)
  | r :: rest =>
      if negb (hasData buffer (range_start (range r)) (range_end (range r))) then
        let '(kept, out, lastEnd', buffer') := resolveRequests buffer rest lastEnd in
        (r :: kept, out, lastEnd', buffer')
      else
        let '(data, buffer1) :=
          slice buffer (range_start (range r)) (range_end (range r)) in
        let '(kept, out, lastEnd', buffer') :=
          resolveRequests buffer1 rest (Some (range_end (range r))) in
        (kept, Resolved (request r) data :: out, lastEnd', buffer')
  end.

Definition _updateState (st : CachedFilelike) : Result :=
  if _closed st then Done st
  else
    let '(kept, out, lastEnd, buffer) :=
      resolveRequests (_virtualBuffer st) (_readRequests st)
                      (_lastResolvedCallbackEnd st) in
    let st1 :=
      emit out
        (set_virtualBuffer buffer
           (set_lastResolvedCallbackEnd lastEnd (set_readRequests kept st))) in
    match sizeOf st1 with
    | inl err => Threw err st1
    | inr fileSize =>
        let newConnection :=
          getNewConnection
            (mkNewConnectionOptions
               (option_map remainingRange (_currentConnection st1))
               (option_map range (hd_error (_readRequests st1)))
               (getRangesWithData (_virtualBuffer st1))
               (_lastResolvedCallbackEnd st1)
               (_cacheSizeInBytes st1)
               fileSize
               CLOSE_ENOUGH_BYTES_TO_NOT_START_NEW_CONNECTION) in
        match newConnection with
        | Some r => Done (_setConnection r st1)
        | None => Done st1
        end
    end.

(** The callback of [this.open().then(...)] inside [read]. *)
Definition readOpened (r : Range) (id : nat) (now : Z) (st : CachedFilelike)
    : Result :=
  match sizeOf st with
  | inl err => Done (emit [RejectedWith id err] st)
  | inr fileSize =>
      if range_end r >? fileSize then Done (emit [RejectedWith id ReadPastSize] st)
      else
        match _updateState
                (set_readRequests (_readRequests st ++ [mkReadRequest r id now]) st)
        with
        | Done st' => Done st'
        | Threw err st' => Done (emit [RejectedWith id err] st')
        end
  end.

(** The [catch] of that promise: [open] failed. *)
Definition readOpenFailed (err : Error) (id : nat) (st : CachedFilelike)
    : CachedFilelike :=
  emit [RejectedWith id err] st.

(** The stream's ["error"] listener, at time [now]. *)
Definition onError (s : nat) (error : Error) (now : Z) (st : CachedFilelike)
    : Result :=
  match _currentConnection st with
  | None => Done st
  | Some currentConnection =>
      if negb (Nat.eqb s (stream currentConnection)) then Done st
      else
        let retry (st1 : CachedFilelike) :=
          _updateState
            (set_currentConnection None
               (emit [Destroyed (stream currentConnection)]
                  (set_lastErrorTime (Some now) st1))) in
        if _keepReconnectingCallback st then
          match _lastErrorTime st with
          | None => retry (emit [Reconnecting true] st)
          | Some _ => retry st
          end
        else
          match _lastErrorTime st with
          | Some lastErrorTime =>
              if now - lastErrorTime <? 100 then
                Done (emit (map (fun r => RejectedWith (request r) error)
                                (_readRequests st))
                           (set_closed true st))
              else retry st
          | None => retry st
          end
  end.

(** The stream's ["data"] listener. *)
Definition onData (s : nat) (chunk : Bytes) (st : CachedFilelike) : Result :=
  match _currentConnection st with
  | None => Done st
  | Some currentConnection =>
      if negb (Nat.eqb s (stream currentConnection)) then Done st
      else
        let st1 :=
          match _lastErrorTime st with
          | Some _ =>
              let st' := set_lastErrorTime None st in
              if _keepReconnectingCallback st' then emit [Reconnecting false] st'
              else st'
          | None => st
          end in
        let st2 :=
          set_virtualBuffer
            (copyFrom (_virtualBuffer st1) chunk
                      (range_start (remainingRange currentConnection)))
            st1 in
        let read := bytesRead currentConnection + Z.of_nat (List.length chunk) in
        let whole := target currentConnection in
        let st3 :=
          if hasData (_virtualBuffer st2) (range_start whole) (range_end whole) then
            set_currentConnection None (emit [Destroyed s] st2)
          else
            set_currentConnection
              (Some (mkConnection s
                       (mkRange (range_start whole + read) (range_end whole))
                       whole read))
              st2 in
        _updateState st3
  end.

(** *** Histories *)

Inductive Event : Type :=
| StreamError (s : nat) (error : Error) (now : Z)
| StreamData (s : nat) (chunk : Bytes)
| ReadOpened (r : Range) (id : nat) (now : Z)
| ReadOpenFailed (err : Error) (id : nat).

Definition stateOf (r : Result) : CachedFilelike :=
  match r with
  | Done st => st
  | Threw _ st => st
  end.

Definition handle (e : Event) (st : CachedFilelike) : CachedFilelike :=
  match e with
  | StreamError s error now => stateOf (onError s error now st)
  | StreamData s chunk => stateOf (onData s chunk st)
  | ReadOpened r id now => stateOf (readOpened r id now st)
  | ReadOpenFailed err id => readOpenFailed err id st
  end.

Definition handleAll (evs : list Event) (st : CachedFilelike) : CachedFilelike :=
  fold_left (fun s e => handle e s) evs st.

(** The effects appended since [st]. *)
Definition isRejection (e : Effect) : bool :=
  match e with RejectedWith _ _ => true | _ => false end.

Definition isFetch (e : Effect) : bool :=
  match e with Fetched _ _ _ => true | _ => false end.

Definition isResolution (e : Effect) : bool :=
  match e with Resolved _ _ => true | _ => false end.

(** An effect that neither opens a connection nor resolves a request. *)
Definition quiet (e : Effect) : bool := negb (isFetch e || isResolution e).

(** What [_updateState] asks [getNewConnection] when no connection is
    open: no remaining range, the first request still pending, the buffer
    as it stands. *)
Definition askedWithoutConnection (fileSize : Z) (st : CachedFilelike)
    : NewConnectionOptions :=
  mkNewConnectionOptions None
    (option_map range (hd_error (_readRequests st)))
    (getRangesWithData (_virtualBuffer st))
    (_lastResolvedCallbackEnd st) (_cacheSizeInBytes st) fileSize
    CLOSE_ENOUGH_BYTES_TO_NOT_START_NEW_CONNECTION.

(** The reader has answered an error on stream [s] by trying again: after
    [first], it destroyed the stream and dropped the connection, resolved
    what the buffer could serve, asked [getNewConnection] with no connection
    open, and opened the connection it answered. *)
Definition retried (s : nat) (first : list Effect) (fileSize : Z)
    (st st' : CachedFilelike) : Prop :=
  _closed st' = false /\
  exists resolved opened,
    effects st' = effects st ++ first ++ [Destroyed s] ++ resolved ++ opened /\
    forallb isResolution resolved = true /\
    match getNewConnection (askedWithoutConnection fileSize st') with
    | None => opened = [] /\ _currentConnection st' = None
    | Some r =>
        opened = [Fetched (nextStream st) (range_start r)
                          (range_end r - range_start r)] /\
        _currentConnection st' = Some (mkConnection (nextStream st) r r 0)
    end.

(** Modelled from the spec: the connection policy of section 4.2, as far as
    errors need it.  A read request that no connection is delivering gets a
    new connection. *)
Definition reconnectsPending : Prop :=
  forall o,
    currentRemainingRange o = None -> readRequestRange o <> None ->
    getNewConnection o <> None.

(** The reader is connected again, by the stream it fetched last. *)
Definition reconnected (st st' : CachedFilelike) : Prop :=
  exists r,
    _currentConnection st' = Some (mkConnection (nextStream st) r r 0) /\
    exists before,
      effects st'
      = before ++ [Fetched (nextStream st) (range_start r)
                           (range_end r - range_start r)].

(** *** Invariants of a reader *)

(** A reader that was constructed and opened, after the events [evs]. *)
Definition readerAfter (cacheSize : option Size) (callback : bool)
    (fileSize : Z) (evs : list Event) : CachedFilelike :=
  handleAll evs (open fileSize (constructor cacheSize callback)).

(** At most one stream is open: the streams fetched are all different, and
    each has been destroyed unless it is the current connection's, which
    has not. *)
Definition oneConnection (st : CachedFilelike) : Prop :=
  NoDup (fetchedStreams (effects st)) /\
  (forall s, In s (fetchedStreams (effects st)) -> (s < nextStream st)%nat) /\
  (forall s, In s (destroyedStreams (effects st)) -> (s < nextStream st)%nat) /\
  (forall c, _currentConnection st = Some c ->
     (stream c < nextStream st)%nat /\
     ~ In (stream c) (destroyedStreams (effects st))) /\
  (forall s, In s (fetchedStreams (effects st)) ->
     In s (destroyedStreams (effects st)) \/
     exists c, _currentConnection st = Some c /\ stream c = s).


(** The callback is told [true] and [false] in turn, [true] first, and an
    error is on record exactly after a [true]; without a callback nothing
    is told. *)
Definition toggles (callback : bool) (st : CachedFilelike) : Prop :=
  _keepReconnectingCallback st = callback /\
  alternates true (reconnectFlags (effects st)) /\
  (callback = false -> reconnectFlags (effects st) = []) /\
  (callback = true ->
   (_lastErrorTime st = None <->
    Nat.even (List.length (reconnectFlags (effects st))) = true)).

End Reader.

(** A stand-in for the two missing modules, to run the reader on: a buffer
    that never holds a whole request, and a policy that opens a connection
    for the first pending request whenever none is open. *)
Definition stubCollaborators : Collaborators :=
  {| VirtualLRUBuffer := unit;
     newVirtualLRUBuffer := fun _ => tt;
     hasData := fun _ _ _ => false;
     getRangesWithData := fun _ => [];
     copyFrom := fun b _ _ => b;
     slice := fun b _ _ => ([], b);
     getNewConnection := fun o =>
       match currentRemainingRange o with
       | Some _ => None
       | None => readRequestRange o
       end |}.

(** *** Sample readers *)

(** A reader over a file of 1000 bytes, opened, with one pending read of
    the first 100 bytes; [callback] says whether a keep-reconnecting
    callback was given.  The read opened stream 0. *)
Definition sampleReader (callback : bool) : @CachedFilelike stubCollaborators :=
  stateOf (readOpened (mkRange 0 100) 0 0 (open 1000 (constructor None callback))).

Definition reset : Error := External "connection reset".

(** A reader over 1000 bytes with one read of the first 100 pending, whose
    first stream has failed once and whose second has delivered a byte. *)
Definition sampleHistory : list Event :=
  [ReadOpened (mkRange 0 100) 0 0; StreamError 0 reset 0; StreamData 1 [x00]].

End Filelike.

(* ===================================================================== *)
(** ** Properties of Time *)
(* ===================================================================== *)

Module RostimeFacts.
Import Rostime.

Lemma wfTimeb_spec t : wfTimeb t = true <-> wfTime t.
Proof.
  unfold wfTimeb, wfTime.
  rewrite !andb_true_iff, !Z.leb_le, Z.ltb_lt. tauto.
Qed.

Lemma toNanoSec_add a b : toNanoSec (add a b) = toNanoSec a + toNanoSec b.
Proof.
  unfold toNanoSec, add, fixTime, NSEC_PER_SEC; simpl.
  pose proof (Z.div_mod (nsec a + nsec b) 1000000000 ltac:(lia)). lia.
Qed.

Lemma wfTime_add a b : wfTime a -> wfTime b -> wfTime (add a b).
Proof.
  unfold wfTime, add, fixTime, NSEC_PER_SEC; simpl. intros [Ha Ha'] [Hb Hb'].
  pose proof (Z.mod_pos_bound (nsec a + nsec b) 1000000000 ltac:(lia)).
  pose proof (Z.div_pos (nsec a + nsec b) 1000000000 ltac:(lia) ltac:(lia)).
  lia.
Qed.

Lemma compare_sign a b :
  wfTime a -> wfTime b ->
  (compare a b <= 0 <-> toNanoSec a <= toNanoSec b) /\
  (compare a b >= 0 <-> toNanoSec a >= toNanoSec b).
Proof.
  unfold wfTime, compare, toNanoSec, NSEC_PER_SEC. intros [Ha Ha'] [Hb Hb'].
  destruct (Z.eqb_spec (sec a - sec b) 0); nia.
Qed.

Lemma compare_le a b :
  wfTime a -> wfTime b -> (compare a b <= 0 <-> toNanoSec a <= toNanoSec b).
Proof. intros Ha Hb. apply (compare_sign a b Ha Hb). Qed.

Lemma compare_ge a b :
  wfTime a -> wfTime b -> (compare a b >= 0 <-> toNanoSec a >= toNanoSec b).
Proof. intros Ha Hb. apply (compare_sign a b Ha Hb). Qed.

End RostimeFacts.

(* ===================================================================== *)
(** ** Properties of BufferedIterableSource *)
(* ===================================================================== *)

Module BufferedFacts.
Import Rostime RostimeFacts Buffered.

Arguments add : simpl never.
Arguments compare : simpl never.
Arguments clampTime : simpl never.

(** *** Lists in time order *)

Lemma timeLe_refl r : timeLe r r.
Proof.
  unfold timeLe, compare. destruct (Z.eqb_spec (sec (resultTime r) - sec (resultTime r)) 0); lia.
Qed.

Lemma compare_trans a b c : compare a b <= 0 -> compare b c <= 0 -> compare a c <= 0.
Proof.
  unfold compare.
  destruct (Z.eqb_spec (sec a - sec b) 0), (Z.eqb_spec (sec b - sec c) 0),
    (Z.eqb_spec (sec a - sec c) 0); lia.
Qed.

Lemma timeLe_trans a b c : timeLe a b -> timeLe b c -> timeLe a c.
Proof. apply compare_trans. Qed.

Lemma sorted_app (l1 l2 : list IteratorResult) :
  StronglySorted timeLe (l1 ++ l2) <->
  StronglySorted timeLe l1 /\ StronglySorted timeLe l2 /\
  (forall a b, In a l1 -> In b l2 -> timeLe a b).
Proof.
  induction l1 as [|x l1 IH]; simpl.
  - split; [intros H; repeat split; [constructor | exact H | contradiction] | tauto].
  - split.
    + intros H. inversion H as [|? ? Hs Hall]; subst.
      apply IH in Hs. destruct Hs as (H1 & H2 & H12).
      rewrite Forall_app in Hall. destruct Hall as [Ha1 Ha2].
      repeat split; [constructor; assumption | assumption |].
      intros a b [<- | Ha] Hb; [| auto].
      rewrite Forall_forall in Ha2. auto.
    + intros (H1 & H2 & H12). inversion H1 as [|? ? Hs Hall]; subst.
      constructor.
      * apply IH. repeat split; auto.
      * rewrite Forall_app. split; [assumption |].
        rewrite Forall_forall. auto.
Qed.

(** Repeating a result in place keeps the order. *)
Lemma sorted_repeat l1 x l2 :
  StronglySorted timeLe (l1 ++ x :: l2) -> StronglySorted timeLe (l1 ++ x :: x :: l2).
Proof.
  rewrite !sorted_app. intros (H1 & H2 & H12). repeat split; [assumption | |].
  - constructor; [assumption |]. constructor; [apply timeLe_refl |].
    inversion H2; assumption.
  - intros a b Ha [<- | Hb]; apply H12; simpl; auto.
Qed.

(** So does leaving one out. *)
Lemma sorted_drop l1 x l2 :
  StronglySorted timeLe (l1 ++ x :: l2) -> StronglySorted timeLe (l1 ++ l2).
Proof.
  rewrite !sorted_app. intros (H1 & H2 & H12). repeat split; [assumption | |].
  - inversion H2; assumption.
  - intros a b Ha Hb. apply H12; simpl; auto.
Qed.

(** *** One transition *)

Ltac break_hyp H :=
  match type of H with
  | context [match ?x with _ => _ end] =>
      lazymatch x with
      | context [match _ with _ => _ end] => fail
      | _ => destruct x eqn:?
      end
  end.

Ltac step_inv H :=
  unfold step, producerStep, generatorStep, callNext, callReturn,
    producerBody, stampLoop, enqueueResult, generatorLoop, generatorFinally,
    stopProducer, settle, producerFinally, dequeue in H;
  simpl in H;
  repeat (break_hyp H; simpl in H; try discriminate H);
  inversion H; subst; clear H.

Ltac by_fields :=
  simpl; unfold pendingResults, held, enqueue; simpl;
  repeat match goal with H : _ = _ |- _ => rewrite H end;
  simpl; rewrite <- ?app_assoc; simpl; reflexivity.

Lemma step_moves e st st' : step e st = Some st' -> moves st st'.
Proof.
  intros H. destruct e; step_inv H.
  all: first
    [ apply moves_none; by_fields
    | eapply moves_yield; by_fields
    | eapply (moves_repeat _ _ (cache st)); by_fields
    | eapply (moves_drop _ _ (cache st)); by_fields ].
Qed.

(** *** The order of the results *)

Lemma step_ordered e st st' :
  step e st = Some st' -> ordered st -> ordered st'.
Proof.
  unfold ordered. intros H Hs. apply step_moves in H.
  destruct H as [Hy Hh Hp | l1 s l2 Hy Hh Hp Hp' | l1 x l2 Hy Hh Hp Hp'
                | x rest Hp Hp' Hy Hh]; rewrite Hy.
  - rewrite Hp. exact Hs.
  - rewrite Hp'. rewrite Hp in Hs. rewrite app_assoc in *.
    apply sorted_repeat. exact Hs.
  - rewrite Hp'. rewrite Hp in Hs. rewrite app_assoc in *.
    apply sorted_drop with x. exact Hs.
  - rewrite Hp'. rewrite Hp in Hs. rewrite <- app_assoc. exact Hs.
Qed.

Lemma run_ordered evs : forall st st',
  run evs st = Some st' -> ordered st -> ordered st'.
Proof.
  induction evs as [|e evs IH]; simpl; intros st st' H Hs.
  - inversion H; subst; exact Hs.
  - destruct (step e st) as [st1|] eqn:He; [| discriminate].
    eapply IH; eauto using step_ordered.
Qed.


(** *** Stuttering *)

Lemma stutter_snoc emitted out r :
  stutter emitted out -> stutter (emitted ++ [r]) (out ++ [r]).
Proof.
  induction 1; simpl.
  - repeat constructor.
  - constructor; assumption.
  - apply stutter_again; assumption.
Qed.

Lemma stutter_nil_inv out : stutter [] out -> out = [].
Proof. inversion 1; reflexivity. Qed.

Lemma stutter_again_last emitted out :
  stutter emitted out ->
  forall pre s, emitted = pre ++ [StampResult s] ->
  stutter emitted (out ++ [StampResult s]).
Proof.
  induction 1 as [| r emitted out H IH | s0 emitted out H IH]; intros pre s E.
  - destruct pre; discriminate.
  - destruct pre as [|p pre]; simpl in E; inversion E; subst.
    + apply stutter_nil_inv in H. subst. simpl.
      apply stutter_again. repeat constructor.
    + simpl. constructor. eapply IH; reflexivity.
  - simpl. apply stutter_again. eapply IH; eassumption.
Qed.

(** A prefix of a stuttering is the stuttering of a prefix. *)
Lemma stutter_prefix emitted out :
  stutter emitted out ->
  forall out1 out2, out = out1 ++ out2 ->
  exists e1 e2, emitted = e1 ++ e2 /\ stutter e1 out1.
Proof.
  induction 1 as [| r emitted out H IH | s0 emitted out H IH]; intros out1 out2 E.
  - exists [], []. destruct out1; [| discriminate]. split; [reflexivity | constructor].
  - destruct out1 as [|x out1]; simpl in E.
    + exists [], (r :: emitted). split; [reflexivity | constructor].
    + injection E as <- ->. destruct (IH out1 out2 eq_refl) as (e1 & e2 & -> & Hs).
      exists (r :: e1), e2. split; [reflexivity | constructor; assumption].
  - destruct out1 as [|x out1]; simpl in E.
    + exists [], (StampResult s0 :: emitted). split; [reflexivity | constructor].
    + injection E as <- ->. destruct (IH out1 out2 eq_refl) as (e1 & e2 & He & Hs).
      destruct e1 as [|y e1].
      * apply stutter_nil_inv in Hs. subst out1. simpl in He. subst e2.
        exists [StampResult s0], emitted.
        split; [reflexivity | repeat constructor].
      * simpl in He. inversion He; subst.
        exists (StampResult s0 :: e1), e2.
        split; [reflexivity | apply stutter_again; assumption].
Qed.

Ltac split4 := split; [| split; [| split]].

Lemma step_inOrderOf emits e st st' :
  step e st = Some st' -> inOrderOf emits st -> inOrderOf emits st'.
Proof.
  intros H (taken & dropped & Hemits & Hst & Hrun & Hheld).
  destruct e; step_inv H.
  all: unfold inOrderOf, producerRunning, enqueue in *; simpl in *.
  all: repeat match goal with
         | H : producer _ = _ |- _ => rewrite H in *
         | H : upcoming _ = _ |- _ => rewrite H in *
         | H : cache _ = _ |- _ => rewrite H in *
         end; simpl in *.
  all: try (specialize (Hrun eq_refl); subst dropped; simpl in * ).
  all: try solve [exists taken, []; split4; try assumption; try discriminate; eauto].
  all: try solve [exists taken, dropped; split4; try assumption; try discriminate; eauto].
  all: try solve [exists taken, dropped; rewrite <- app_assoc; simpl;
                  split4; auto].
  1: { exists taken, [i]. split4; try reflexivity; try assumption; discriminate. }
  all: try solve
    [ eexists (taken ++ [_]), []; rewrite <- app_assoc; simpl;
      split4;
      first [ reflexivity | discriminate
            | rewrite app_assoc; apply stutter_snoc; assumption
            | intros s ru E; injection E as <- _; eexists; reflexivity ] ].
  exists taken, []. simpl.
  split4; [reflexivity | | reflexivity | intros s ru E; injection E as <- _; eauto].
  destruct (Hheld _ _ eq_refl) as (pre & E).
  rewrite app_assoc. eapply stutter_again_last; eassumption.
Qed.

Lemma run_inOrderOf emits evs : forall st st',
  run evs st = Some st' -> inOrderOf emits st -> inOrderOf emits st'.
Proof.
  induction evs as [|e evs IH]; simpl; intros st st' H Hs.
  - inversion H; subst; exact Hs.
  - destruct (step e st) as [st1|] eqn:He; [| discriminate].
    eapply IH; eauto using step_inOrderOf.
Qed.



(** *** The start of a session *)

Lemma messageIterator_returns args st st0 :
  messageIterator args st = Returns st0 ->
  generator st0 = NotStarted /\ yielded st0 = [] /\ genArgs st0 = args /\
  aborted st0 = false /\ readHead st0 = startOf args st /\
  readSignal st0 = readSignal st /\ writeSignal st0 = writeSignal st /\
  readAheadDuration st0 = readAheadDuration st /\
  ((topics args = [] /\ producer st0 = Some Fulfilled /\ readDone st0 = true) \/
   (topics args <> [] /\ cache st0 = [] /\ readDone st0 = false /\
    (exists ru, producer st0 = Some (AwaitSource ru)) /\
    sourceIterator st0 = source st (topics args) (startOf args st))).
Proof.
  unfold messageIterator, startProducer, startOf.
  destruct (initResult st) as [init|] eqn:Hi; [| discriminate].
  destruct (producer st); [discriminate |]. simpl. rewrite Hi.
  destruct (topics args) as [|t ts] eqn:Ht; simpl; intros H; inversion H; subst; clear H; simpl.
  - repeat split; try reflexivity. left. repeat split; reflexivity.
  - repeat split; try reflexivity. right.
    split; [discriminate |]. repeat split; try reflexivity. eexists; reflexivity.
Qed.

Lemma messageIterator_no_topics args st st0 :
  topics args = [] ->
  messageIterator args st = Returns st0 ->
  generator st0 = NotStarted /\ genArgs st0 = args /\
  producer st0 = Some Fulfilled /\ yielded st0 = [] /\
  cache st0 = cache st /\ sourceIterator st0 = sourceIterator st.
Proof.
  intros Ht Hit. unfold messageIterator, startProducer in Hit.
  destruct (initResult st) as [init|] eqn:Hin; [| discriminate].
  destruct (producer st); [discriminate |]. simpl in Hit. rewrite Hin, Ht in Hit.
  simpl in Hit. injection Hit as <-. repeat split.
Qed.

Lemma step_silentSession e st st' : step e st = Some st' -> silentSession st -> silentSession st'.
Proof.
  intros H (Ht & Hy & Hg1 & Hg2).
  destruct e; step_inv H; unfold silentSession; simpl;
    try congruence; try (repeat split; solve [assumption | discriminate]).
  all: rewrite Ht in *; simpl in *; try discriminate.
Qed.

Lemma run_silentSession evs : forall st st',
  run evs st = Some st' -> silentSession st -> silentSession st'.
Proof.
  induction evs as [|e evs IH]; simpl; intros st st' H Hs.
  - inversion H; subst; exact Hs.
  - destruct (step e st) as [st1|] eqn:He; [| discriminate].
    eapply IH; eauto using step_silentSession.
Qed.

#[local] Instance timeLe_Transitive : RelationClasses.Transitive timeLe.
Proof. intros a b c. apply timeLe_trans. Qed.

(** C2.  Time-monotonicity and order: when the wrapped source emits its
    results in non-decreasing time order, the results the generator yields
    are in non-decreasing time order, and they are the results the source
    emitted, from the first on and in the source's order, each in its place
    (a stamp possibly several times in a row, never out of place). *)
Theorem yielded_in_source_order args st st0 evs st' :
  Sorted timeLe (upcoming (source st (topics args) (startOf args st))) ->
  messageIterator args st = Returns st0 ->
  run evs st0 = Some st' ->
  Sorted timeLe (yielded st') /\
  exists emitted rest,
    upcoming (source st (topics args) (startOf args st)) = emitted ++ rest /\
    stutter emitted (yielded st').
Proof.
  intros Hsrc Hit Hrun.
  destruct (messageIterator_returns _ _ _ Hit)
    as (Hg & Hy & Ha & _ & _ & _ & _ & _ & [(Ht & Hp & Hd) | (Ht & Hc & Hd & (ru & Hp) & Hs)]).
  - assert (Hsil : silentSession st').
    { eapply run_silentSession; [eassumption |]. unfold silentSession.
      rewrite Ha, Hy, Hg. repeat split; [assumption | discriminate | discriminate]. }
    destruct Hsil as (_ & -> & _). split; [constructor |].
    exists [], (upcoming (source st (topics args) (startOf args st))).
    split; [reflexivity | constructor].
  - split.
    + assert (Ho : ordered st').
      { eapply run_ordered; [eassumption |]. unfold ordered, pendingResults, held.
        rewrite Hy, Hc, Hp, Hs. simpl.
        apply Sorted_StronglySorted; [exact timeLe_Transitive | assumption]. }
      apply StronglySorted_Sorted. apply sorted_app in Ho. tauto.
    + assert (Hi : inOrderOf (upcoming (source st (topics args) (startOf args st))) st').
      { eapply run_inOrderOf; [eassumption |]. exists [], [].
        rewrite Hy, Hc, Hs, Hp. simpl.
        split4; [reflexivity | constructor | reflexivity | discriminate]. }
      destruct Hi as (taken & dropped & He & Hst & _ & _).
      destruct (stutter_prefix _ _ Hst _ _ eq_refl) as (e1 & e2 & -> & Hs1).
      exists e1, (e2 ++ dropped ++ upcoming (sourceIterator st')).
      split; [rewrite He, <- app_assoc; reflexivity | assumption].
Qed.


(** *** The read head and the horizon *)

Lemma step_readAheadDuration e st st' :
  step e st = Some st' -> readAheadDuration st' = readAheadDuration st.
Proof. intros H. destruct e; step_inv H; reflexivity. Qed.

Lemma step_tidy e st st' : step e st = Some st' -> tidy st -> tidy st'.
Proof.
  intros H (Ho & Hh & Hd & Hall).
  pose proof (step_ordered _ _ _ H Ho) as Ho'.
  pose proof (step_readAheadDuration _ _ _ H) as Hd'.
  unfold tidy. rewrite Hd'. split; [assumption |].
  unfold ordered in Ho. apply step_moves in H.
  destruct H as [Hy Hr Hp | l1 s l2 Hy Hr Hp Hp' | l1 x l2 Hy Hr Hp Hp'
                | x rest Hp Hp' Hy Hr]; rewrite Hr.
  - rewrite Hp. auto.
  - rewrite Hp'. rewrite Hp in Hall. split; [assumption | split; [assumption |]].
    rewrite Forall_app in *. destruct Hall as [H1 H2]. split; [assumption |].
    inversion H2 as [|? ? Hx Hl2]; subst.
    constructor; [exact Hx |]. constructor; assumption.
  - rewrite Hp'. rewrite Hp in Hall. split; [assumption | split; [assumption |]].
    rewrite Forall_app in *. destruct Hall as [H1 H2]. split; [assumption |].
    inversion H2; assumption.
  - rewrite Hp'. rewrite Hp in Hall, Ho. inversion Hall as [|? ? [Hx _] Hrest]; subst.
    split; [assumption | split; [assumption |]].
    apply sorted_app in Ho. destruct Ho as (_ & Hs & _).
    inversion Hs as [|? ? _ Hle]; subst.
    rewrite Forall_forall in *. intros r Hr'. split; [apply Hrest; assumption |].
    apply Hle. assumption.
Qed.

Lemma run_tidy evs : forall st st',
  run evs st = Some st' -> tidy st -> tidy st'.
Proof.
  induction evs as [|e evs IH]; simpl; intros st st' H Hs.
  - inversion H; subst; exact Hs.
  - destruct (step e st) as [st1|] eqn:He; [| discriminate].
    eapply IH; eauto using step_tidy.
Qed.

Lemma filter_length_le {A} (f g : A -> bool) l :
  (forall x, In x l -> f x = true -> g x = true) ->
  (List.length (filter f l) <= List.length (filter g l))%nat.
Proof.
  induction l as [|a l IH]; simpl; intros H; [lia |].
  assert (IH' := IH (fun x Hx => H x (or_intror Hx))).
  destruct (f a) eqn:Hf.
  - rewrite (H a (or_introl eq_refl) Hf). simpl. lia.
  - destruct (g a); simpl; lia.
Qed.

(** A later read head leaves no more results past the horizon. *)
Lemma pastHorizon_later (h h' d x : Time) :
  wfTime h -> wfTime h' -> wfTime d -> wfTime x ->
  compare h h' <= 0 ->
  (compare x (add h' d) >? 0) = true -> (compare x (add h d) >? 0) = true.
Proof.
  intros Hh Hh' Hd Hx Hle.
  pose proof (wfTime_add _ _ Hh Hd) as W.
  pose proof (wfTime_add _ _ Hh' Hd) as W'.
  rewrite !Z.gtb_ltb, !Z.ltb_lt. intros H.
  pose proof (compare_le _ _ Hx W) as C.
  pose proof (compare_le _ _ Hx W') as C'.
  pose proof (compare_le _ _ Hh Hh') as Ch.
  rewrite !toNanoSec_add in *. lia.
Qed.

Lemma yield_ahead st i v :
  tidy st -> cache st = i :: v ->
  (List.length
     (filter (fun r => compare (resultTime r)
                         (add (resultTime i) (readAheadDuration st)) >? 0) v)
   <= List.length
        (filter (fun r => compare (resultTime r)
                            (add (readHead st) (readAheadDuration st)) >? 0)
                (cache st)))%nat.
Proof.
  intros (_ & Hh & Hd & Hall) Hc. unfold pendingResults in Hall.
  rewrite Hc in *. simpl in Hall.
  inversion Hall as [|? ? [Hwi Hle] Hrest]; subst.
  apply Forall_app in Hrest. destruct Hrest as [Hv _].
  rewrite Forall_forall in Hv.
  etransitivity.
  - apply filter_length_le
      with (g := fun r => compare (resultTime r)
                            (add (readHead st) (readAheadDuration st)) >? 0).
    intros x Hx. apply pastHorizon_later; try assumption. apply Hv; assumption.
  - simpl. destruct (compare (resultTime i) _ >? 0); simpl; lia.
Qed.

Lemma step_budget e st st' :
  step e st = Some st' -> tidy st -> budget st -> budget st'.
Proof.
  intros H Ht Hb. unfold budget in *.
  destruct e; step_inv H; simpl; intros Ha;
    try discriminate Ha; try (specialize (Hb Ha));
    unfold ahead, credit, pastHorizon, horizon, enqueue, wait, notifyAll, waiting in *; simpl in *.
  all: repeat match goal with
         | H : producer _ = _ |- _ => rewrite H in *
         | H : existsb _ _ = _ |- _ => rewrite H in *
         end; simpl in *.
  all: rewrite ?filter_app, ?length_app, ?existsb_app; simpl.
  all: rewrite ?orb_true_r; simpl.
  all: try congruence.
  all: repeat match goal with
         | H : (_ <=? _) = true |- _ => apply Z.leb_le in H
         | H : (_ <=? _) = false |- _ => apply Z.leb_gt in H
         | H : (_ >=? _) = true |- _ => rewrite Z.geb_leb in H; apply Z.leb_le in H
         | H : (_ >=? _) = false |- _ => rewrite Z.geb_leb in H; apply Z.leb_gt in H
         | H : Nat.eqb _ _ = true |- _ =>
             apply Nat.eqb_eq in H; unfold size in H; simpl in H;
             rewrite length_app in H; simpl in H; lia
         end.
  all: repeat match goal with
         | |- context [?a >? ?b] => destruct (Z.gtb_spec a b)
         end; simpl; try lia.
  all: pose proof (yield_ahead st i v Ht Heqv) as Hy;
    destruct (producer st) as [[| | | |]|];
    try destruct (existsb (Task_eqb ProducerTask) (writeSignal st)); lia.
Qed.

Lemma run_budget evs : forall st st',
  run evs st = Some st' -> tidy st -> budget st -> budget st'.
Proof.
  induction evs as [|e evs IH]; simpl; intros st st' H Ht Hb.
  - inversion H; subst; exact Hb.
  - destruct (step e st) as [st1|] eqn:He; [| discriminate].
    eapply IH; eauto using step_budget, step_tidy.
Qed.



(** With no topic nothing is enqueued and nothing dequeued. *)
Lemma step_dormant found e st st' :
  step e st = Some st' -> dormant found st -> dormant found st'.
Proof.
  intros H (Hs & Hc & Hp).
  split; [eapply step_silentSession; eassumption |].
  destruct Hs as (Ht & _ & Hg1 & Hg2). unfold producerRunning in *.
  destruct e; step_inv H; simpl in *;
    repeat match goal with
      | H : producer _ = _ |- _ => rewrite H in *
      end; simpl in *;
    try discriminate; try congruence; auto.
  all: rewrite Ht in *; simpl in *; discriminate.
Qed.

Lemma run_dormant found evs : forall st st',
  run evs st = Some st' -> dormant found st -> dormant found st'.
Proof.
  induction evs as [|e evs IH]; simpl; intros st st' H Hs.
  - inversion H; subst; exact Hs.
  - destruct (step e st) as [st1|] eqn:He; [| discriminate].
    eapply IH; eauto using step_dormant.
Qed.

(** C1 (as amended).  Read-ahead bound: in a session with a non-empty topic
    list over a source that emits its results in non-decreasing time order,
    none earlier than the start time, at every suspension point before the
    session is aborted the number of cached results whose time exceeds
    [readHead + readAheadDuration] is at most one more than the number of
    results the generator has dequeued so far.  Before the first dequeue
    that is the bound with one result of slack; every dequeue then lets the
    producer enqueue one more result, whatever its time.  A session with an
    empty topic list never touches the queue: it holds what the instance
    held before, whatever its times, and nothing is dequeued. *)
Theorem read_ahead_within_dequeued args st st0 evs st' :
  wfTime (startOf args st) -> wfTime (readAheadDuration st) ->
  Sorted timeLe (upcoming (source st (topics args) (startOf args st))) ->
  Forall (fun r => wfTime (resultTime r) /\
                   compare (startOf args st) (resultTime r) <= 0)
         (upcoming (source st (topics args) (startOf args st))) ->
  messageIterator args st = Returns st0 ->
  run evs st0 = Some st' ->
  (topics args <> [] -> aborted st' = false ->
   (ahead st' <= 1 + List.length (yielded st'))%nat) /\
  (topics args = [] -> cache st' = cache st /\ yielded st' = []).
Proof.
  intros Hws Hwd Hsrc Hall Hit Hrun. split.
  - intros Ht Ha.
    destruct (messageIterator_returns _ _ _ Hit)
      as (Hg & Hy & _ & Hab & Hrh & _ & _ & Hd &
          [(Ht' & _) | (_ & Hc & _ & (ru & Hp) & Hs)]);
      [contradiction |].
    assert (Htidy : tidy st0).
    { unfold tidy, ordered, pendingResults, held.
      rewrite Hy, Hc, Hp, Hs, Hrh, Hd. simpl.
      split; [apply Sorted_StronglySorted; [exact timeLe_Transitive | assumption] |].
      auto. }
    assert (Hb : budget st0).
    { intros _. unfold ahead, credit. rewrite Hc, Hp, Hy. simpl. lia. }
    pose proof (run_budget _ _ _ Hrun Htidy Hb Ha). lia.
  - intros Ht.
    destruct (messageIterator_no_topics _ _ _ Ht Hit)
      as (Hg & Ha & Hp & Hy & Hc & _).
    assert (Hd : dormant (cache st) st0).
    { unfold dormant, silentSession, producerRunning.
      rewrite Hg, Ha, Hp, Hy, Hc, Ht. simpl.
      repeat split; discriminate. }
    destruct (run_dormant _ _ _ _ Hrun Hd) as ((_ & Hy' & _) & Hc' & _).
    split; assumption.
Qed.

(** *** Completion *)

Lemma step_completionSeen e st st' :
  step e st = Some st' -> completionSeen st -> completionSeen st'.
Proof.
  intros H Hc. unfold completionSeen, producerSettled in *.
  destruct e; step_inv H; simpl; intros Hs;
    repeat match goal with
      | H : producer _ = _ |- _ => rewrite H in *
      end; simpl in *;
    try discriminate; try (split; reflexivity); try (apply Hc; assumption).
  all: destruct (Hc Hs) as [Hd Hr];
    first [discriminate | split; assumption | congruence].
Qed.

Lemma run_completionSeen evs : forall st st',
  run evs st = Some st' -> completionSeen st -> completionSeen st'.
Proof.
  induction evs as [|e evs IH]; simpl; intros st st' H Hs.
  - inversion H; subst; exact Hs.
  - destruct (step e st) as [st1|] eqn:He; [| discriminate].
    eapply IH; eauto using step_completionSeen.
Qed.

(** The [finally] path: whichever way the producer leaves its loop. *)
Lemma producer_exit st st' :
  producerRunning st = true -> producerStep st = Some st' ->
  producerRunning st' = false ->
  producerSettled st' = true /\ readDone st' = true /\ readSignal st' = [].
Proof.
  intros Hr H Hn. change (step ProducerRuns st = Some st') in H.
  unfold producerRunning, producerSettled in *.
  step_inv H; simpl in *; try discriminate; repeat split; reflexivity.
Qed.


(** C5.  Whenever the producer leaves its loop (the source is exhausted, the
    session was aborted, or the source threw) the [finally] block has set
    [readDone] and notified [readSignal].  So in every state of a session in
    which the producer's promise has settled, [readDone] is set and the
    generator is not waiting on [readSignal]; if it was suspended there it
    is free to run, and its next turn yields a cached result or enters its
    own [finally] block: it never waits on a finished or crashed producer. *)
Theorem producer_exit_wakes_consumer args st st0 evs st1 :
  idle st ->
  messageIterator args st = Returns st0 ->
  run evs st0 = Some st1 ->
  (forall st2,
      producerRunning st1 = true -> producerStep st1 = Some st2 ->
      producerRunning st2 = false ->
      producerSettled st2 = true /\ readDone st2 = true /\ readSignal st2 = []) /\
  (producerSettled st1 = true ->
   readDone st1 = true /\ waiting ConsumerTask (readSignal st1) = false /\
   (generator st1 = ReadWait ->
    exists st2, generatorStep st1 = Some st2 /\
                (generator st2 = Yielded \/ generator st2 = Stopping))).
Proof.
  intros (_ & Hrs & _) Hit Hrun. split.
  - intros st2. apply producer_exit.
  - intros Hs.
    assert (Hc : completionSeen st0).
    { destruct (messageIterator_returns _ _ _ Hit)
        as (_ & _ & _ & _ & _ & Hr & _ & _ & [(_ & Hp & Hd) | (_ & _ & _ & (ru & Hp) & _)]);
        unfold completionSeen, producerSettled; rewrite Hp; simpl.
      - intros _. split; congruence.
      - discriminate. }
    destruct (run_completionSeen _ _ _ Hrun Hc Hs) as [Hd Hr].
    split; [assumption |]. split; [rewrite Hr; reflexivity |].
    intros Hg. unfold generatorStep, generatorLoop, generatorFinally, dequeue.
    rewrite Hg, Hr. simpl. rewrite Hd.
    destruct (cache st1); eexists; (split; [reflexivity |]); simpl; auto.
Qed.

(** *** The stamp loop *)

Lemma geb_true a : a >= 0 -> (a >=? 0) = true.
Proof. intros H. rewrite Z.geb_leb. apply Z.leb_le. lia. Qed.

Lemma geb_false a : a < 0 -> (a >=? 0) = false.
Proof. intros H. rewrite Z.geb_leb. apply Z.leb_gt. lia. Qed.

Lemma waiting_after_wait t cv : waiting t (wait t cv) = true.
Proof.
  unfold waiting, wait. rewrite existsb_app. simpl.
  destruct t; simpl; apply orb_true_r.
Qed.

(** C9.  The stamp cycle.  A stamp received at or past the horizon
    [readHead + readAheadDuration] is enqueued, [readSignal] is notified and
    the producer blocks on [writeSignal], asking the source for nothing.
    Each time it is released it recomputes the horizon from the read head:
    while the stamp is still at or past it the same stamp is enqueued once
    more and the producer blocks again; once the stamp is below the horizon
    the producer goes back to the source without enqueueing.  (The sample
    session of [gapSchedule] shows the generator handing out the
    same stamp three times in a row.) *)
Theorem stamp_past_horizon_cycle st s :
  (forall ru rest,
      producer st = Some (AwaitSource ru) -> aborted st = false ->
      upcoming (sourceIterator st) = StampResult s :: rest ->
      compare s (horizon st) >= 0 ->
      exists st', producerStep st = Some st' /\ enqueuedAndBlocked s st st' /\
                  upcoming (sourceIterator st') = rest) /\
  (forall ru,
      producer st = Some (StampWait s ru) ->
      (waiting ProducerTask (writeSignal st) = true -> producerStep st = None) /\
      (waiting ProducerTask (writeSignal st) = false ->
       exists st', producerStep st = Some st' /\
         upcoming (sourceIterator st') = upcoming (sourceIterator st) /\
         (compare s (horizon st) >= 0 -> enqueuedAndBlocked s st st') /\
         (compare s (horizon st) < 0 ->
          cache st' = cache st /\ producer st' = Some (AwaitSource (horizon st))))).
Proof.
  unfold enqueuedAndBlocked, horizon. split.
  - intros ru rest Hp Ha Hu Hge. apply geb_true in Hge.
    unfold producerStep, producerBody, stampLoop.
    rewrite Hp, Hu. simpl. rewrite Ha, Hge.
    eexists. split; [reflexivity |]. simpl.
    rewrite waiting_after_wait. repeat split; reflexivity.
  - intros ru Hp. unfold producerStep, stampLoop. rewrite Hp.
    split; intros Hw; rewrite Hw; [reflexivity |].
    eexists. split; [reflexivity |]. split; [| split].
    + destruct (compare s _ >=? 0); reflexivity.
    + intros Hge. rewrite (geb_true _ Hge). simpl.
      rewrite waiting_after_wait. repeat split; reflexivity.
    + intros Hlt. rewrite (geb_false _ Hlt). split; reflexivity.
Qed.

(** *** Abort *)

Lemma step_stuckInStampLoop e st st' :
  step e st = Some st' -> stuckInStampLoop st -> stuckInStampLoop st'.
Proof.
  intros H (Ha & Hg & s & ru & Hp & Hge).
  unfold stuckInStampLoop, horizon in *.
  destruct e; step_inv H; simpl; try congruence.
  - injection Hp as <- <-.
    split; [assumption |]. split; [assumption |].
    eexists _, _. split; [reflexivity | assumption].
  - injection Hp as <- <-.
    rewrite Z.geb_leb in Heqb0. apply Z.leb_gt in Heqb0. lia.
Qed.

Lemma run_stuckInStampLoop evs : forall st st',
  run evs st = Some st' -> stuckInStampLoop st -> stuckInStampLoop st'.
Proof.
  induction evs as [|e evs IH]; simpl; intros st st' H Hs.
  - inversion H; subst; exact Hs.
  - destruct (step e st) as [st1|] eqn:He; [| discriminate].
    eapply IH; eauto using step_stuckInStampLoop.
Qed.

(** From such a state [stopProducer] never resolves: the producer stays in
    the loop and the generator in its [finally] block. *)
Lemma stuck_forever evs st st' :
  stuckInStampLoop st -> run evs st = Some st' ->
  producerRunning st' = true /\ generator st' = Stopping.
Proof.
  intros Hs Hrun. destruct (run_stuckInStampLoop _ _ _ Hrun Hs)
    as (_ & Hg & s & ru & Hp & _).
  unfold producerRunning. rewrite Hp. auto.
Qed.

(** *** Who may call [messageIterator] *)

(** The guard of [messageIterator]: it looks at what is stored. *)
Lemma messageIterator_guard args st :
  (exists msg, messageIterator args st = Throws msg) <->
  (initResult st = None \/ producer st <> None).
Proof.
  unfold messageIterator. split.
  - intros [msg H]. destruct (initResult st); [| auto].
    destruct (producer st); [right; discriminate |].
    destruct (startProducer _ _). discriminate.
  - intros [H | H].
    + rewrite H. eexists; reflexivity.
    + destruct (initResult st); [| eexists; reflexivity].
      destruct (producer st); [eexists; reflexivity | congruence].
Qed.

Lemma stored_promise_refuses init p st :
  initResult st = Some init -> producer st = Some p ->
  forall args,
    messageIterator args st
    = Throws "Invariant: BufferedIterableSource allows only one messageIterator".
Proof.
  intros Hi Hp args. unfold messageIterator. rewrite Hi, Hp. reflexivity.
Qed.


(** *** The sample sessions *)

(** Conjunctions of closed facts, each settled by evaluation. *)
Ltac evaluate :=
  lazymatch goal with
  | |- _ /\ _ => split; evaluate
  | |- _ => vm_compute; first [reflexivity | discriminate]
  end.

Lemma sample_idle results fails : idle (sampleInstance results fails).
Proof. repeat split. Qed.

Lemma sample_sorted_1_50_60 : Sorted timeLe [msgAt 1; msgAt 50; msgAt 60].
Proof. repeat constructor; unfold timeLe; vm_compute; discriminate. Qed.

(** C1, counterexample: after one result is dequeued, two cached results
    lie past the horizon, the latest and the one before it. *)
Lemma read_ahead_bound_exceeded :
  let st0 := sessionOf sampleArgs (sampleInstance [msgAt 1; msgAt 50; msgAt 60] None) in
  let evs := [ProducerRuns; ProducerRuns; CallNext; ProducerRuns; ProducerRuns] in
  messageIterator sampleArgs (sampleInstance [msgAt 1; msgAt 50; msgAt 60] None)
    = Returns st0 /\
  run evs st0 = Some (after evs st0) /\
  aborted (after evs st0) = false /\
  readHead (after evs st0) = mkTime 1 0 /\
  horizon (after evs st0) = mkTime 11 0 /\
  cache (after evs st0) = [msgAt 50; msgAt 60] /\
  ahead (after evs st0) = 2%nat /\
  ~ oneItemSlack (after evs st0).
Proof.
  cbv zeta. split; [vm_compute; reflexivity |].
  split; [vm_compute; reflexivity |]. split; [vm_compute; reflexivity |].
  split; [vm_compute; reflexivity |]. split; [vm_compute; reflexivity |].
  split; [vm_compute; reflexivity |]. split; [vm_compute; reflexivity |].
  intros H. specialize (H (msgAt 50)). vm_compute in H.
  apply H; [left; reflexivity | reflexivity].
Qed.

(** C1, witness: the same session, within the amended bound. *)
Lemma read_ahead_within_dequeued_witness :
  let st := sampleInstance [msgAt 1; msgAt 50; msgAt 60] None in
  let evs := [ProducerRuns; ProducerRuns; CallNext; ProducerRuns; ProducerRuns] in
  (ahead (after evs (sessionOf sampleArgs st))
   <= 1 + List.length (yielded (after evs (sessionOf sampleArgs st))))%nat.
Proof.
  intros st evs.
  apply (proj1 (read_ahead_within_dequeued sampleArgs st
                  (sessionOf sampleArgs st) evs _
                  ltac:(apply wfTimeb_spec; reflexivity)
                  ltac:(apply wfTimeb_spec; reflexivity)
                  sample_sorted_1_50_60
                  ltac:(repeat constructor; try (apply wfTimeb_spec; reflexivity);
                        vm_compute; discriminate)
                  ltac:(vm_compute; reflexivity)
                  ltac:(vm_compute; reflexivity))).
  - discriminate.
  - vm_compute; reflexivity.
Defined.

(** Why the bound needs a topic: the caller leaves that session with the
    results at 50 s and 60 s still queued; a session with no topic then
    starts at 0 s without clearing the queue, and both lie past its horizon
    with nothing dequeued. *)
Lemma stale_queue_in_empty_session :
  let left := after [ProducerRuns; ProducerRuns; CallNext; ProducerRuns;
                     ProducerRuns; CallReturn; ProducerRuns; ProducerRuns;
                     GeneratorRuns]
                    (sessionOf sampleArgs
                       (sampleInstance [msgAt 1; msgAt 50; msgAt 60; msgAt 70] None)) in
  let st0 := sessionOf (mkArgs [] (Some (mkTime 0 0))) left in
  producer left = None /\
  messageIterator (mkArgs [] (Some (mkTime 0 0))) left = Returns st0 /\
  cache st0 = [msgAt 50; msgAt 60] /\
  horizon st0 = mkTime 10 0 /\
  ahead st0 = 2%nat /\ yielded st0 = [].
Proof. cbv zeta. evaluate. Qed.


Lemma sample_sorted_1_2_100 : Sorted timeLe [msgAt 1; msgAt 2; stampAt 100].
Proof. repeat constructor; unfold timeLe; vm_compute; discriminate. Qed.

(** The generator hands out the stamp three times in a row. *)
Lemma gap_yields_stamp_thrice :
  let st0 := sessionOf sampleArgs (sampleInstance [msgAt 1; msgAt 2; stampAt 100] None) in
  run gapSchedule st0 = Some (after gapSchedule st0) /\
  yielded (after gapSchedule st0)
    = [msgAt 1; msgAt 2; stampAt 100; stampAt 100; stampAt 100] /\
  generator (after gapSchedule st0) = Completed None /\
  producer (after gapSchedule st0) = None.
Proof. cbv zeta. evaluate. Qed.

(** C2, witness. *)
Lemma yielded_in_source_order_witness :
  let st := sampleInstance [msgAt 1; msgAt 2; stampAt 100] None in
  let st' := after gapSchedule (sessionOf sampleArgs st) in
  Sorted timeLe (yielded st') /\
  exists emitted rest,
    upcoming (source st (topics sampleArgs) (startOf sampleArgs st))
      = emitted ++ rest /\
    stutter emitted (yielded st').
Proof.
  intros st st'.
  apply (yielded_in_source_order sampleArgs st (sessionOf sampleArgs st) gapSchedule st').
  - exact sample_sorted_1_2_100.
  - vm_compute; reflexivity.
  - vm_compute; reflexivity.
Defined.

(** C9, witness: the stamp at 100 s arrives while the horizon is at 10 s. *)
Lemma stamp_past_horizon_cycle_witness :
  let st := after [ProducerRuns; ProducerRuns]
              (sessionOf sampleArgs (sampleInstance [msgAt 1; msgAt 2; stampAt 100] None)) in
  exists st', producerStep st = Some st' /\
              enqueuedAndBlocked (mkTime 100 0) st st' /\
              upcoming (sourceIterator st') = [].
Proof.
  intros st.
  apply (proj1 (stamp_past_horizon_cycle st (mkTime 100 0)) (mkTime 10 0) []).
  - vm_compute; reflexivity.
  - vm_compute; reflexivity.
  - vm_compute; reflexivity.
  - vm_compute; discriminate.
Defined.

(** C3: the caller leaves after the first result while the producer holds
    the stamp at 100 s.  [stopProducer] wakes the producer, which enqueues
    the stamp once more and blocks again; its promise never settles, and the
    generator never leaves its [finally] block. *)
Theorem stopProducer_hangs_in_stamp_loop :
  let st0 := sessionOf sampleArgs (sampleInstance [msgAt 1; stampAt 100] None) in
  let evs := [ProducerRuns; ProducerRuns; CallNext; ProducerRuns; CallReturn] in
  let st1 := after evs st0 in
  run evs st0 = Some st1 /\
  aborted st1 = true /\ generator st1 = Stopping /\
  producer st1 = Some (StampWait (mkTime 100 0) (mkTime 11 0)) /\
  waiting ProducerTask (writeSignal st1) = false /\
  (exists st2, producerStep st1 = Some st2 /\
               cache st2 = cache st1 ++ [stampAt 100] /\
               producer st2 = Some (StampWait (mkTime 100 0) (mkTime 11 0)) /\
               waiting ProducerTask (writeSignal st2) = true) /\
  (forall evs' st', run evs' st1 = Some st' ->
                    producerRunning st' = true /\ generator st' = Stopping).
Proof.
  cbv zeta.
  split; [vm_compute; reflexivity |]. split; [vm_compute; reflexivity |].
  split; [vm_compute; reflexivity |]. split; [vm_compute; reflexivity |].
  split; [vm_compute; reflexivity |]. split.
  - eexists. split; [vm_compute; reflexivity |]. evaluate.
  - intros evs' st' Hrun. eapply stuck_forever; [| eassumption].
    split; [vm_compute; reflexivity |]. split; [vm_compute; reflexivity |].
    exists (mkTime 100 0), (mkTime 11 0).
    split; [vm_compute; reflexivity | vm_compute; discriminate].
Qed.

(** C4.  [messageIterator] throws exactly when [initialize] has not
    completed or a promise is stored in [producer]; the guard does not ask
    whether a producer is running.  A source that throws at once leaves the
    instance refusing for good: the producer's promise is rejected, the
    [await] in [stopProducer] rethrows before the promise is cleared, and
    the generator ends with the error.  Nothing runs any more, yet
    [messageIterator] throws, and a direct [stopProducer] rethrows again and
    clears nothing.  The same session over a source that ends normally
    clears the promise, and [messageIterator] returns. *)
Theorem messageIterator_refused_after_failure :
  let evs := [ProducerRuns; CallNext; GeneratorRuns] in
  let failing := sessionOf sampleArgs (sampleInstance [] (Some "boom"%string)) in
  let failed := after evs failing in
  let ending := sessionOf sampleArgs (sampleInstance [] None) in
  let ended := after evs ending in
  (forall args st,
     (exists msg, messageIterator args st = Throws msg) <->
     (initResult st = None \/ producer st <> None)) /\
  run evs failing = Some failed /\
  initResult failed <> None /\
  producerRunning failed = false /\
  generator failed = Completed (Some "boom"%string) /\
  producer failed = Some (Rejected "boom") /\
  (forall args,
     messageIterator args failed
     = Throws "Invariant: BufferedIterableSource allows only one messageIterator") /\
  stopProducerResumed (stopProducer failed) = Rethrows "boom" /\
  (forall args,
     messageIterator args (stopProducer failed)
     = Throws "Invariant: BufferedIterableSource allows only one messageIterator") /\
  run evs ending = Some ended /\
  generator ended = Completed None /\ producer ended = None /\
  exists st, messageIterator sampleArgs ended = Returns st.
Proof.
  cbv zeta.
  split; [intros args st; apply messageIterator_guard |].
  split; [vm_compute; reflexivity |]. split; [vm_compute; discriminate |].
  split; [vm_compute; reflexivity |]. split; [vm_compute; reflexivity |].
  split; [vm_compute; reflexivity |].
  split.
  { apply (stored_promise_refuses (mkInitalization (mkTime 0 0) (mkTime 200 0))
             (Rejected "boom")); vm_compute; reflexivity. }
  split; [vm_compute; reflexivity |].
  split.
  { apply (stored_promise_refuses (mkInitalization (mkTime 0 0) (mkTime 200 0))
             (Rejected "boom")); vm_compute; reflexivity. }
  split; [vm_compute; reflexivity |]. split; [vm_compute; reflexivity |].
  split; [vm_compute; reflexivity |].
  eexists. vm_compute. reflexivity.
Qed.

(** C5, witness: the generator waits for data and the source throws. *)
Lemma producer_exit_wakes_consumer_witness :
  let st := sampleInstance [] (Some "boom"%string) in
  let st1 := after [CallNext; ProducerRuns] (sessionOf sampleArgs st) in
  generator st1 = ReadWait /\
  producer st1 = Some (Rejected "boom") /\
  ((forall st2,
       producerRunning st1 = true -> producerStep st1 = Some st2 ->
       producerRunning st2 = false ->
       producerSettled st2 = true /\ readDone st2 = true /\ readSignal st2 = []) /\
   (producerSettled st1 = true ->
    readDone st1 = true /\ waiting ConsumerTask (readSignal st1) = false /\
    (generator st1 = ReadWait ->
     exists st2, generatorStep st1 = Some st2 /\
                 (generator st2 = Yielded \/ generator st2 = Stopping)))).
Proof.
  intros st st1.
  split; [vm_compute; reflexivity |]. split; [vm_compute; reflexivity |].
  apply (producer_exit_wakes_consumer sampleArgs st (sessionOf sampleArgs st)
           [CallNext; ProducerRuns] st1).
  - apply sample_idle.
  - vm_compute; reflexivity.
  - vm_compute; reflexivity.
Defined.

End BufferedFacts.

(* ===================================================================== *)
(** ** Properties of CachedFilelike *)
(* ===================================================================== *)

Module FilelikeFacts.
Import Filelike.

(** [ceilDiv] is the ceiling of the quotient. *)
Lemma ceilDiv_spec a b :
  0 < b -> (ceilDiv a b - 1) * b < a <= ceilDiv a b * b.
Proof.
  intros Hb. unfold ceilDiv.
  pose proof (Z.div_mod (- a) b ltac:(lia)).
  pose proof (Z.mod_pos_bound (- a) b Hb). nia.
Qed.

Section Reader.
Context {collaborators : Collaborators}.

(** C10.  A read of length zero, at any offset (negative or past the end of
    the file included), is answered at once with an empty array: the test
    comes before every validation and before [open], so the call neither
    throws nor leaves a promise to reject, and it touches neither the
    reader, the requests nor the connection. *)
Theorem read_nothing st offset :
  read offset 0 st = (st, ReadResolves []) /\
  (forall st' result, read offset 0 st = (st', result) ->
     effects st' = effects st /\ _readRequests st' = _readRequests st /\
     _currentConnection st' = _currentConnection st /\
     (forall err, result <> ReadThrows err) /\
     (forall r, result <> ReadPending r)).
Proof.
  split; [reflexivity |].
  intros st' result H. unfold read in H. simpl in H.
  injection H as <- <-. repeat split; discriminate.
Qed.

(** C8.  The first [open] records the size the reader reports and sizes the
    cache by it.  With a cache budget below the file size the buffer is built
    with blocks of 10 MiB (10485760 bytes) and [n + 2] of them, [n] being the
    quotient of the budget by the block size rounded up; with a budget of at
    least the file size (or none) it is built from the file size alone, with
    no block size and no limit on the blocks. *)
Theorem open_sizes_cache st fileSize :
  _fileSize st = None ->
  _fileSize (open fileSize st) = Some fileSize /\
  (forall c, _cacheSizeInBytes st = Finite c -> c < fileSize ->
     exists n, (n - 1) * 10485760 < c <= n * 10485760 /\
       _virtualBuffer (open fileSize st)
       = newVirtualLRUBuffer (mkOptions fileSize (Some 10485760) (Some (n + 2)))) /\
  (covers (_cacheSizeInBytes st) fileSize = true ->
     _virtualBuffer (open fileSize st)
     = newVirtualLRUBuffer (mkOptions fileSize None None)).
Proof.
  intros Hn. unfold open, openResumed, openCalled. rewrite Hn. simpl.
  split; [| split].
  - destruct (covers _ _); [reflexivity |].
    destruct (_cacheSizeInBytes st); reflexivity.
  - intros c Hc Hlt. rewrite Hc. simpl.
    rewrite Z.geb_leb. destruct (Z.leb_spec fileSize c); [lia |]. simpl.
    exists (ceilDiv c CACHE_BLOCK_SIZE). split; [| reflexivity].
    apply (ceilDiv_spec c 10485760). lia.
  - intros Hc. rewrite Hc. reflexivity.
Qed.

(** C7.  Invariant violations of [read], for a length other than zero: a
    negative offset or length throws at once; so does a length above
    [cacheSizeInBytes]; otherwise [read] hands out a promise, and once the
    file is open a range that ends past the file size rejects that promise
    and leaves the reader as it was: the request is not queued and no
    connection is touched, so nothing is tried again. *)
Theorem read_invariant_violations st offset length :
  length <> 0 ->
  ((offset < 0 \/ length < 0) ->
     read offset length st = (st, ReadThrows InvalidInput)) /\
  (0 <= offset -> 0 < length -> exceeds length (_cacheSizeInBytes st) = true ->
     read offset length st
     = (st, ReadThrows (MoreThanCacheSize length (_cacheSizeInBytes st)))) /\
  (0 <= offset -> 0 < length -> exceeds length (_cacheSizeInBytes st) = false ->
     read offset length st
     = (openCalled st, ReadPending (mkRange offset (offset + length))) /\
     forall st1 fileSize id now,
       _fileSize st1 = Some fileSize -> offset + length > fileSize ->
       readOpened (mkRange offset (offset + length)) id now st1
       = Done (emit [RejectedWith id ReadPastSize] st1)).
Proof.
  intros Hz. unfold read.
  destruct (Z.eqb_spec length 0) as [|_]; [contradiction |].
  split; [| split].
  - intros H.
    assert (E : (offset <? 0) || (length <? 0) = true).
    { apply orb_true_iff. rewrite !Z.ltb_lt. exact H. }
    rewrite E. reflexivity.
  - intros Ho Hl He.
    assert (E : (offset <? 0) || (length <? 0) = false).
    { apply orb_false_iff. rewrite !Z.ltb_ge. lia. }
    rewrite E, He. reflexivity.
  - intros Ho Hl He.
    assert (E : (offset <? 0) || (length <? 0) = false).
    { apply orb_false_iff. rewrite !Z.ltb_ge. lia. }
    rewrite E, He. split; [reflexivity |].
    intros st1 fileSize id now Hs Hgt. unfold readOpened, sizeOf.
    rewrite Hs. simpl. rewrite Z.gtb_ltb.
    destruct (Z.ltb_spec fileSize (offset + length)); [reflexivity | lia].
Qed.


(** *** What [_updateState] does to the outside *)

Lemma resolveRequests_resolves requests : forall buffer lastEnd kept out lastEnd' buffer',
  resolveRequests buffer requests lastEnd = (kept, out, lastEnd', buffer') ->
  forallb isResolution out = true.
Proof.
  induction requests as [|r rest IH]; simpl; intros buffer lastEnd kept out l' b' H.
  - injection H as <- <- <- <-. reflexivity.
  - destruct (hasData buffer _ _); simpl in H.
    + destruct (slice buffer _ _) as [data buffer1].
      destruct (resolveRequests buffer1 rest _) as [[[k o] l] b] eqn:E.
      injection H as <- <- <- <-. simpl. eapply IH; eassumption.
    + destruct (resolveRequests buffer rest lastEnd) as [[[k o] l] b] eqn:E.
      injection H as <- <- <- <-. eapply IH; eassumption.
Qed.

(** On an opened reader [_updateState] ends normally; it resolves requests,
    and opens at most one connection, the stream it numbers [nextStream],
    destroying the current one first. *)
Lemma updateState_opened st fileSize :
  _fileSize st = Some fileSize -> _closed st = false ->
  exists st' resolved opened,
    _updateState st = Done st' /\
    effects st' = effects st ++ resolved ++ opened /\
    forallb isResolution resolved = true /\
    _closed st' = false /\ _fileSize st' = Some fileSize /\
    _lastErrorTime st' = _lastErrorTime st /\
    _keepReconnectingCallback st' = _keepReconnectingCallback st /\
    ((opened = [] /\ _currentConnection st' = _currentConnection st /\
      nextStream st' = nextStream st) \/
     (exists r,
        _currentConnection st' = Some (mkConnection (nextStream st) r r 0) /\
        nextStream st' = S (nextStream st) /\
        opened = match _currentConnection st with
                 | Some c => [Destroyed (stream c)]
                 | None => []
                 end ++
                 [Fetched (nextStream st) (range_start r)
                          (range_end r - range_start r)])).
Proof.
  intros Hs Hc. unfold _updateState. rewrite Hc.
  destruct (resolveRequests _ _ _) as [[[kept out] lastEnd] buffer] eqn:E.
  unfold sizeOf. simpl. rewrite Hs.
  pose proof (resolveRequests_resolves _ _ _ _ _ _ _ E) as Hout.
  destruct (getNewConnection _) as [r|].
  - eexists _, out,
      (match _currentConnection st with
       | Some c => [Destroyed (stream c)]
       | None => []
       end ++ [Fetched (nextStream st) (range_start r) (range_end r - range_start r)]).
    split; [reflexivity |].
    unfold _setConnection. simpl.
    destruct (_currentConnection st) as [c|] eqn:Hcc; simpl;
      (split; [rewrite <- ?app_assoc; reflexivity |]);
      repeat (split; [first [assumption | reflexivity] |]);
      right; exists r; repeat split; reflexivity.
  - exists (emit out (set_virtualBuffer buffer
              (set_lastResolvedCallbackEnd lastEnd (set_readRequests kept st)))),
      out, []. simpl. rewrite app_nil_r.
    repeat (split; [first [assumption | reflexivity] |]).
    left. repeat split; reflexivity.
Qed.

Lemma updateState_closed st : _closed st = true -> _updateState st = Done st.
Proof. intros H. unfold _updateState. rewrite H. reflexivity. Qed.


(** [_updateState] with no connection open. *)
Lemma updateState_unconnected st fileSize :
  _fileSize st = Some fileSize -> _closed st = false ->
  _currentConnection st = None ->
  exists st' resolved opened,
    _updateState st = Done st' /\
    effects st' = effects st ++ resolved ++ opened /\
    forallb isResolution resolved = true /\
    _closed st' = false /\ _fileSize st' = Some fileSize /\
    _lastErrorTime st' = _lastErrorTime st /\
    _keepReconnectingCallback st' = _keepReconnectingCallback st /\
    match getNewConnection (askedWithoutConnection fileSize st') with
    | None => opened = [] /\ _currentConnection st' = None
    | Some r =>
        opened = [Fetched (nextStream st) (range_start r)
                          (range_end r - range_start r)] /\
        _currentConnection st' = Some (mkConnection (nextStream st) r r 0)
    end.
Proof.
  intros Hs Hc Hcc. unfold _updateState. rewrite Hc.
  destruct (resolveRequests _ _ _) as [[[kept out] lastEnd] buffer] eqn:E.
  unfold sizeOf. simpl. rewrite Hs, Hcc. simpl.
  pose proof (resolveRequests_resolves _ _ _ _ _ _ _ E) as Hout.
  destruct (getNewConnection _) as [r|] eqn:G.
  - eexists _, out, _. split; [reflexivity |].
    unfold _setConnection, askedWithoutConnection. simpl. rewrite Hcc. simpl.
    rewrite G.
    split; [rewrite <- ?app_assoc; reflexivity |].
    repeat (split; [first [assumption | reflexivity] |]).
    reflexivity.
  - eexists _, out, []. split; [reflexivity |].
    unfold askedWithoutConnection. simpl. rewrite G, app_nil_r.
    repeat (split; [first [assumption | reflexivity] |]).
    assumption.
Qed.

(** The way every non-fatal error ends. *)
Lemma retry_retried s first st0 st fileSize now :
  _fileSize st = Some fileSize -> _closed st = false ->
  effects st = effects st0 ++ first -> nextStream st = nextStream st0 ->
  exists st',
    _updateState
      (set_currentConnection None
         (emit [Destroyed s] (set_lastErrorTime (Some now) st))) = Done st' /\
    _lastErrorTime st' = Some now /\
    _keepReconnectingCallback st' = _keepReconnectingCallback st /\
    _fileSize st' = Some fileSize /\
    retried s first fileSize st0 st'.
Proof.
  intros Hs Hc He Hn.
  destruct (updateState_unconnected
              (set_currentConnection None
                 (emit [Destroyed s] (set_lastErrorTime (Some now) st)))
              fileSize Hs Hc eq_refl)
    as (st' & resolved & opened & Hu & Heff & Hres & Hcl & Hfs & Hle & Hk & Hconn).
  simpl in *. exists st'.
  split; [assumption |]. split; [assumption |]. split; [assumption |].
  split; [assumption |]. unfold retried.
  split; [assumption |]. exists resolved, opened.
  split; [rewrite Heff, He, <- !app_assoc; reflexivity |].
  split; [assumption |]. rewrite <- Hn. exact Hconn.
Qed.

(** Under the policy of section 4.2 a retry with a request still pending
    ends connected. *)
Lemma retried_reconnects s first fileSize st st' :
  retried s first fileSize st st' ->
  reconnectsPending -> _readRequests st' <> [] -> reconnected st st'.
Proof.
  intros (_ & resolved & opened & He & _ & Hconn) Hpol Hpend.
  destruct (getNewConnection (askedWithoutConnection fileSize st')) as [r|] eqn:G.
  - destruct Hconn as [-> Hcc]. exists r. split; [assumption |].
    eexists. rewrite He, !app_assoc. reflexivity.
  - exfalso. apply (Hpol (askedWithoutConnection fileSize st')); try assumption.
    + reflexivity.
    + simpl. destruct (_readRequests st'); [contradiction | discriminate].
Qed.

(** *** A closed reader stays closed *)

Lemma handle_closed e st :
  _closed st = true ->
  _closed (handle e st) = true /\
  exists out, effects (handle e st) = effects st ++ out /\
              forallb quiet out = true.
Proof.
  intros Hc. destruct e as [s error now | s chunk | r id now | err id]; simpl.
  - unfold onError.
    destruct (_currentConnection st) as [c|];
      [| split; [assumption | exists []; rewrite app_nil_r; auto]].
    destruct (negb (Nat.eqb s (stream c)));
      [split; [assumption | exists []; rewrite app_nil_r; auto] |].
    destruct (_keepReconnectingCallback st), (_lastErrorTime st) as [t|];
      try destruct (now - t <? 100);
      rewrite ?updateState_closed by (simpl; assumption); simpl;
      (split; [first [assumption | reflexivity] |]);
      rewrite <- ?app_assoc; eexists; (split; [reflexivity |]); simpl; try reflexivity.
    induction (_readRequests st); simpl; auto.
  - unfold onData.
    destruct (_currentConnection st) as [c|];
      [| split; [assumption | exists []; rewrite app_nil_r; auto]].
    destruct (negb (Nat.eqb s (stream c)));
      [split; [assumption | exists []; rewrite app_nil_r; auto] |].
    destruct (_lastErrorTime st), (_keepReconnectingCallback st) eqn:Hk; simpl;
      rewrite ?Hk; simpl;
      match goal with
      | |- context [hasData ?b ?x ?y] => destruct (hasData b x y)
      end;
      rewrite ?updateState_closed by (simpl; assumption); simpl;
      (split; [assumption |]);
      rewrite <- ?app_assoc; simpl;
      first [ exists []; rewrite app_nil_r; split; reflexivity
            | eexists; split; [reflexivity |]; reflexivity ].
  - unfold readOpened. destruct (sizeOf st) as [err | n]; simpl.
    + split; [assumption |]. eexists; split; reflexivity.
    + destruct (range_end r >? n); simpl.
      * split; [assumption |]. eexists; split; reflexivity.
      * rewrite updateState_closed by (simpl; assumption). simpl.
        split; [assumption |]. exists []. rewrite app_nil_r. auto.
  - split; [assumption |]. eexists; split; reflexivity.
Qed.

Lemma handleAll_closed evs : forall st,
  _closed st = true ->
  _closed (handleAll evs st) = true /\
  exists out, effects (handleAll evs st) = effects st ++ out /\
              forallb quiet out = true.
Proof.
  induction evs as [|e evs IH]; simpl; intros st Hc.
  - split; [assumption |]. exists []. rewrite app_nil_r. auto.
  - destruct (handle_closed e st Hc) as (Hc1 & out1 & He1 & Hq1).
    destruct (IH _ Hc1) as (Hc2 & out2 & He2 & Hq2).
    split; [assumption |]. exists (out1 ++ out2).
    change (fold_left (fun s e0 => handle e0 s) evs (handle e st))
      with (handleAll evs (handle e st)).
    rewrite He2, He1, <- app_assoc. split; [reflexivity |].
    rewrite forallb_app, Hq1, Hq2. reflexivity.
Qed.


(** C6 (as amended).  Errors of the current stream, on an opened reader.
    Without a keep-reconnecting callback an error less than 100 ms after the
    last error, with no data received in between ([_lastErrorTime] still
    holds that error), is fatal: every pending request is rejected with this
    error and the reader is closed for good (whatever happens next, it stays
    closed, opens no connection and resolves no request).  Any other error
    is retried: the stream is destroyed and the connection dropped, the time
    is recorded, nothing is rejected, and [_updateState] asks
    [getNewConnection] with no connection open and opens the connection it
    answers; under the policy of section 4.2 (a request that nothing is
    delivering gets a connection) the reader is connected again whenever a
    request is still pending.  With the callback every error is retried so,
    and the callback is told [true] on an error that finds no earlier one
    recorded.  Data on the current stream clears the recorded error,
    telling the callback [false] if one was recorded. *)
Theorem stream_error_policy st s error now c fileSize :
  _currentConnection st = Some c -> stream c = s ->
  _fileSize st = Some fileSize -> _closed st = false ->
  (* no callback: a second error within 100 ms, no data in between *)
  (_keepReconnectingCallback st = false ->
   forall t, _lastErrorTime st = Some t -> now - t < 100 ->
   exists st',
     onError s error now st = Done st' /\ _closed st' = true /\
     effects st'
     = effects st ++ map (fun r => RejectedWith (request r) error) (_readRequests st) /\
     forall evs,
       _closed (handleAll evs st') = true /\
       exists out, effects (handleAll evs st') = effects st' ++ out /\
                   forallb quiet out = true) /\
  (* no callback: any other error *)
  (_keepReconnectingCallback st = false ->
   (_lastErrorTime st = None \/
    exists t, _lastErrorTime st = Some t /\ 100 <= now - t) ->
   exists st',
     onError s error now st = Done st' /\ _lastErrorTime st' = Some now /\
     retried s [] fileSize st st' /\
     (reconnectsPending -> _readRequests st' <> [] -> reconnected st st')) /\
  (* with the callback: every error *)
  (_keepReconnectingCallback st = true ->
   exists st',
     onError s error now st = Done st' /\ _lastErrorTime st' = Some now /\
     retried s (match _lastErrorTime st with
                | None => [Reconnecting true]
                | Some _ => []
                end) fileSize st st' /\
     (reconnectsPending -> _readRequests st' <> [] -> reconnected st st')) /\
  (* data on the current stream forgets the last error *)
  (forall chunk,
   exists st',
     onData s chunk st = Done st' /\ _lastErrorTime st' = None /\
     _closed st' = false /\
     exists out,
       effects st'
       = effects st ++
         (match _lastErrorTime st with
          | Some _ => if _keepReconnectingCallback st then [Reconnecting false] else []
          | None => []
          end) ++ out).
Proof.
  intros Hcc Hs Hfs Hcl. subst s.
  split; [| split; [| split]].
  - intros Hk t Ht Hlt. unfold onError.
    rewrite Hcc, Nat.eqb_refl, Hk, Ht. simpl.
    destruct (Z.ltb_spec (now - t) 100); [| lia].
    eexists. split; [reflexivity |]. split; [reflexivity |].
    split; [reflexivity |]. intros evs. apply handleAll_closed. reflexivity.
  - intros Hk Hlast. unfold onError. rewrite Hcc, Nat.eqb_refl, Hk. simpl.
    assert (E : match _lastErrorTime st with
                | Some lastErrorTime =>
                    if now - lastErrorTime <? 100
                    then Done (emit (map (fun r => RejectedWith (request r) error)
                                         (_readRequests st)) (set_closed true st))
                    else _updateState
                           (set_currentConnection None
                              (emit [Destroyed (stream c)]
                                 (set_lastErrorTime (Some now) st)))
                | None => _updateState
                            (set_currentConnection None
                               (emit [Destroyed (stream c)]
                                  (set_lastErrorTime (Some now) st)))
                end
                = _updateState
                    (set_currentConnection None
                       (emit [Destroyed (stream c)]
                          (set_lastErrorTime (Some now) st)))).
    { destruct Hlast as [-> | (t & -> & Hge)]; [reflexivity |].
      destruct (Z.ltb_spec (now - t) 100); [lia | reflexivity]. }
    rewrite E.
    destruct (retry_retried (stream c) [] st st fileSize now Hfs Hcl
                (eq_sym (app_nil_r _)) eq_refl)
      as (st' & Hu & Hle & _ & _ & Hr).
    exists st'. eauto using retried_reconnects.
  - intros Hk. unfold onError. rewrite Hcc, Nat.eqb_refl, Hk. simpl.
    destruct (_lastErrorTime st) as [t|].
    + destruct (retry_retried (stream c) [] st st fileSize now Hfs Hcl
                  (eq_sym (app_nil_r _)) eq_refl)
        as (st' & Hu & Hle & _ & _ & Hr).
      exists st'. eauto using retried_reconnects.
    + destruct (retry_retried (stream c) [Reconnecting true] st
                  (emit [Reconnecting true] st) fileSize now Hfs Hcl
                  eq_refl eq_refl)
        as (st' & Hu & Hle & _ & _ & Hr).
      exists st'. eauto using retried_reconnects.
  - intros chunk. unfold onData. rewrite Hcc, Nat.eqb_refl. simpl.
    destruct (_lastErrorTime st) as [t|] eqn:Hl;
      destruct (_keepReconnectingCallback st) eqn:Hk; simpl; rewrite ?Hk; simpl;
      match goal with
      | |- context [hasData ?b ?x ?y] => destruct (hasData b x y)
      end;
      match goal with
      | |- exists st', _updateState ?x = _ /\ _ =>
          destruct (updateState_opened x fileSize) as
            (st' & resolved & opened & Hu & Heff & _ & Hc' & _ & Hle & _);
          [simpl; assumption | simpl; assumption |]
      end;
      simpl in *; exists st';
      (split; [assumption |]);
      (split; [rewrite Hle; first [reflexivity | assumption] |]);
      (split; [assumption |]);
      rewrite Heff, <- ?app_assoc; simpl; eexists; reflexivity.
Qed.

End Reader.
(** *** The sample readers *)

#[local] Existing Instance stubCollaborators.

Ltac evaluate :=
  lazymatch goal with
  | |- _ /\ _ => split; evaluate
  | |- _ => vm_compute; first [reflexivity | discriminate]
  end.

(** C6, counterexample: no callback; an error at 0 ms, one byte of data at
    the new stream, and a second error 20 ms after the first.  The second
    error is not fatal: the reader is open, nothing was rejected, and a third
    connection has been opened for the pending request. *)
Lemma error_after_data_is_retried :
  let evs := [StreamError 0 reset 0; StreamData 1 [x00]; StreamError 1 reset 20] in
  _keepReconnectingCallback (sampleReader false) = false /\
  _closed (handleAll evs (sampleReader false)) = false /\
  _lastErrorTime (handleAll evs (sampleReader false)) = Some 20 /\
  forallb (fun e => negb (isRejection e))
          (effects (handleAll evs (sampleReader false))) = true /\
  effects (handleAll evs (sampleReader false))
  = [OpenCalled; Fetched 0 0 100; Destroyed 0; Fetched 1 0 100;
     Destroyed 1; Fetched 2 0 100].
Proof. cbv zeta. evaluate. Qed.

(** C6, witness: the same reader, the second error arriving with no data in
    between. *)
Lemma stream_error_policy_witness :
  let st := handleAll [StreamError 0 reset 0] (sampleReader false) in
  exists st',
    onError 1 reset 20 st = Done st' /\ _closed st' = true /\
    effects st'
    = effects st ++ map (fun r => RejectedWith (request r) reset) (_readRequests st) /\
    forall evs,
      _closed (handleAll evs st') = true /\
      exists out, effects (handleAll evs st') = effects st' ++ out /\
                  forallb quiet out = true.
Proof.
  intros st.
  apply (proj1 (@stream_error_policy stubCollaborators st 1%nat reset 20
                  (mkConnection 1 (mkRange 0 100) (mkRange 0 100) 0) 1000
                  eq_refl eq_refl eq_refl eq_refl) eq_refl 0).
  - reflexivity.
  - reflexivity.
Defined.

(** C7, witness: 100 bytes from offset 950 of the file of 1000 bytes. *)
Lemma read_invariant_violations_witness :
  read 950 100 (sampleReader false)
  = (openCalled (sampleReader false), ReadPending (mkRange 950 1050)) /\
  forall st1 fileSize id now,
    _fileSize st1 = Some fileSize -> 950 + 100 > fileSize ->
    readOpened (mkRange 950 (950 + 100)) id now st1
    = Done (emit [RejectedWith id ReadPastSize] st1).
Proof.
  apply (proj2 (proj2 (@read_invariant_violations stubCollaborators
                         (sampleReader false) 950 100 ltac:(discriminate)))).
  - discriminate.
  - reflexivity.
  - reflexivity.
Defined.

(** C8, witness: a budget of 25 MB against a file of 100 MB gives 3 + 2
    blocks. *)
Lemma open_sizes_cache_witness :
  let st := @constructor stubCollaborators (Some (Finite 25000000)) false in
  _fileSize (open 100000000 st) = Some 100000000 /\
  (forall c, _cacheSizeInBytes st = Finite c -> c < 100000000 ->
     exists n, (n - 1) * 10485760 < c <= n * 10485760 /\
       _virtualBuffer (open 100000000 st)
       = newVirtualLRUBuffer (mkOptions 100000000 (Some 10485760) (Some (n + 2)))) /\
  (covers (_cacheSizeInBytes st) 100000000 = true ->
     _virtualBuffer (open 100000000 st)
     = newVirtualLRUBuffer (mkOptions 100000000 None None)).
Proof.
  intros st.
  apply (@open_sizes_cache stubCollaborators st 100000000). reflexivity.
Defined.

End FilelikeFacts.

(* ===================================================================== *)
(** ** BufferedIterableSource: more of the session *)
(* ===================================================================== *)

Module BufferedMore.
Import Rostime RostimeFacts Buffered BufferedFacts.

Arguments add : simpl never.
Arguments compare : simpl never.
Arguments clampTime : simpl never.

Lemma waiting_wait_other t u cv :
  t <> u -> waiting t (wait u cv) = waiting t cv.
Proof.
  intros H. unfold waiting, wait. rewrite existsb_app. simpl.
  destruct t, u; simpl; try congruence; apply orb_false_r.
Qed.

Lemma step_wakeful e st st' : step e st = Some st' -> wakeful st -> wakeful st'.
Proof.
  intros H (Hp & Hc & Hd & Hn & Hx).
  destruct e; step_inv H;
    unfold wakeful, producerRunning, atWriteWait, completed in *; simpl in *.
  all: repeat match goal with
         | H : producer _ = _ |- _ => rewrite H in *
         | H : cache _ = _ |- _ => rewrite H in *
         | H : generator _ = _ |- _ => rewrite H in *
         end; simpl in *.
  all: rewrite ?waiting_after_wait, ?waiting_wait_other by discriminate.
  all: unfold notifyAll, enqueue; simpl.
  all: repeat split; intros;
    try match goal with
      | H : waiting ProducerTask (writeSignal _) = true |- _ =>
          destruct (Hp H) as [? ?]
      end;
    try match goal with
      | H : waiting ConsumerTask (readSignal _) = true |- _ =>
          destruct (Hc H) as (? & ? & ?)
      end;
    simpl in *; try congruence; try discriminate; auto.
  all: try (destruct (cache _); discriminate).
  all: try solve [match goal with
                  | Hd : _ -> _ -> _ = true, H : _ = false |- _ =>
                      specialize (Hd H eq_refl); congruence
                  end].
  all: match goal with
       | Hx : generator _ = Stopping -> _, H : generator _ = Stopping |- _ =>
           specialize (Hx H); congruence
       end.
Qed.

Lemma run_wakeful evs : forall st st',
  run evs st = Some st' -> wakeful st -> wakeful st'.
Proof.
  induction evs as [|e evs IH]; simpl; intros st st' H Hs.
  - inversion H; subst; exact Hs.
  - destruct (step e st) as [st1|] eqn:He; [| discriminate].
    eapply IH; eauto using step_wakeful.
Qed.

Lemma session_wakeful args st st0 :
  idle st -> messageIterator args st = Returns st0 -> wakeful st0.
Proof.
  intros (_ & Hr & Hw) Hit.
  destruct (messageIterator_returns _ _ _ Hit)
    as (Hg & _ & _ & _ & _ & Hr' & Hw' & _ &
        [(_ & Hp & Hd) | (_ & _ & _ & (ru & Hp) & _)]);
    unfold wakeful, producerRunning, atWriteWait, completed;
    rewrite Hr', Hw', Hr, Hw, Hp, Hg; simpl;
    repeat split; intros; try discriminate; auto.
Qed.

(** X1.  In a session started on an idle instance, a producer that waits on
    [writeSignal] has left at least one result in the queue, and a generator
    that waits on [readSignal] has found the queue empty while the producer
    has not finished: neither sleeps while the other has nothing to wake it
    for. *)
Theorem no_lost_wakeup args st st0 evs st' :
  idle st ->
  messageIterator args st = Returns st0 ->
  run evs st0 = Some st' ->
  (waiting ProducerTask (writeSignal st') = true ->
   cache st' <> [] /\ atWriteWait st' = true) /\
  (waiting ConsumerTask (readSignal st') = true ->
   cache st' = [] /\ readDone st' = false /\ generator st' = ReadWait /\
   producerRunning st' = true).
Proof.
  intros Hi Hit Hrun.
  destruct (run_wakeful _ _ _ Hrun (session_wakeful _ _ _ Hi Hit))
    as (Hp & Hc & Hd & Hn & Hx).
  split; [exact Hp |]. intros Hw. destruct (Hc Hw) as (H1 & H2 & H3).
  repeat split; try assumption.
  destruct (producerRunning st') eqn:E; [reflexivity |].
  unfold completed in Hd. rewrite H3 in Hd.
  specialize (Hd eq_refl eq_refl). congruence.
Qed.

(** X2.  A pending [next()] is never stuck.  While the generator waits on
    [readSignal] for a result, one of the two tasks can resume: the producer
    if the generator still sleeps, the generator once it has been woken. *)
Theorem pending_next_is_never_stuck args st st0 evs st' :
  idle st ->
  messageIterator args st = Returns st0 ->
  run evs st0 = Some st' ->
  generator st' = ReadWait ->
  (waiting ConsumerTask (readSignal st') = true ->
   exists st'', step ProducerRuns st' = Some st'') /\
  (waiting ConsumerTask (readSignal st') = false ->
   exists st'', step GeneratorRuns st' = Some st'').
Proof.
  intros Hi Hit Hrun Hg.
  destruct (run_wakeful _ _ _ Hrun (session_wakeful _ _ _ Hi Hit))
    as (Hp & Hc & Hd & Hn & Hx).
  unfold completed in *. split; intros Hw.
  - destruct (Hc Hw) as (Hcache & Hrd & _).
    simpl. unfold producerStep.
    assert (Hnw : waiting ProducerTask (writeSignal st') = false).
    { destruct (waiting ProducerTask (writeSignal st')) eqn:E; [| reflexivity].
      destruct (Hp eq_refl) as [Hne _]. contradiction. }
    rewrite Hnw.
    unfold producerRunning in Hd. rewrite Hg in Hd.
    destruct (producer st') as [[ru | s ru | ru | | err]|] eqn:Hpr; simpl in Hd;
      try (specialize (Hd eq_refl eq_refl); congruence).
    + destruct (upcoming (sourceIterator st')); [destruct (failure _) |];
        eexists; reflexivity.
    + eexists; reflexivity.
    + eexists; reflexivity.
  - simpl. unfold generatorStep. rewrite Hg, Hw. eexists; reflexivity.
Qed.

(** *** Reading to the end *)

Lemma step_thorough emits e st st' :
  e <> CallReturn ->
  step e st = Some st' -> thorough emits st -> thorough emits st'.
Proof.
  intros Hne H (Hin & Ht & Hrd & Hfull & Hab & Hstop & Hstop').
  pose proof (step_inOrderOf _ _ _ _ H Hin) as Hin'.
  split; [exact Hin' |]. clear Hin'.
  destruct Hin as (taken & dropped & Hemits & Hst & Hrun & _).
  destruct e; [| | | congruence]; step_inv H;
    unfold producerRunning, completed, enqueue in *; simpl in *.
  all: repeat match goal with
         | H : producer _ = _ |- _ => rewrite H in *
         | H : cache _ = _ |- _ => rewrite H in *
         | H : generator _ = _ |- _ => rewrite H in *
         | H : upcoming _ = _ |- _ => rewrite H in *
         end; simpl in *.
  all: try (destruct (topics (genArgs st)); [contradiction | discriminate]).
  all: repeat split; intros; try discriminate; try congruence; auto.
  all: try solve [rewrite <- app_assoc; simpl; auto].
  all: try solve [match goal with
                  | H : _ \/ _ |- _ => destruct H; discriminate
                  end].
  all: try solve [exfalso;
                  match goal with
                  | Hrd : readDone _ = true -> _, H : readDone _ = true |- _ =>
                      specialize (Hrd H); discriminate
                  end].
  all: try solve [match goal with
                  | H : aborted _ = true |- _ =>
                      destruct (Hstop' H); discriminate
                  end].
  all: try solve [rewrite (Hrun eq_refl) in *; simpl in *;
                  rewrite app_nil_r in *; assumption].
  all: try solve [rewrite <- (app_nil_r (yielded st)); auto].
  all: try solve [match goal with
                  | Hs : ?P -> _, H : ?P |- _ => specialize (Hs H); congruence
                  end].
  all: destruct (aborted st) eqn:Ha;
    [ apply Hab; reflexivity
    | rewrite <- (app_nil_r (yielded st)); apply Hfull; reflexivity ].
Qed.

Lemma run_thorough emits evs : forall st st',
  ~ In CallReturn evs ->
  run evs st = Some st' -> thorough emits st -> thorough emits st'.
Proof.
  induction evs as [|e evs IH]; simpl; intros st st' Hn H Hs.
  - inversion H; subst; exact Hs.
  - destruct (step e st) as [st1|] eqn:He; [| discriminate].
    apply (IH st1); [tauto | assumption |].
    eapply step_thorough; [| eassumption | assumption]. intros ->. tauto.
Qed.

(** X3.  A caller that iterates to the end, never calling [return()], is
    handed everything the source emitted before it ended or threw: when the
    generator stops, the results it has yielded are the source's results,
    all of them and in order (a stamp possibly several times in a row). *)
Theorem iterating_to_the_end_yields_everything args st st0 evs st' :
  topics args <> [] ->
  messageIterator args st = Returns st0 ->
  run evs st0 = Some st' ->
  ~ In CallReturn evs ->
  generator st' = Stopping \/ completed st' = true ->
  stutter (upcoming (source st (topics args) (startOf args st))) (yielded st').
Proof.
  intros Ht Hit Hrun Hn Hend.
  destruct (messageIterator_returns _ _ _ Hit)
    as (Hg & Hy & Ha & Hab & _ & _ & _ & _ &
        [(Ht' & _) | (_ & Hc & Hd & (ru & Hp) & Hs)]); [contradiction |].
  assert (Hth : thorough (upcoming (source st (topics args) (startOf args st))) st0).
  { unfold thorough, inOrderOf, producerRunning, completed.
    rewrite Hg, Hy, Ha, Hab, Hc, Hd, Hp, Hs. simpl.
    split; [exists [], []; split4;
            [reflexivity | constructor | reflexivity | discriminate] |].
    repeat split; intros; try discriminate; try assumption.
    destruct H; discriminate. }
  destruct (run_thorough _ _ _ _ Hn Hrun Hth) as (_ & _ & _ & _ & Hfin & Hstop & _).
  auto.
Qed.

(** *** Leaving early *)

Lemma run_cons e evs st st1 :
  step e st = Some st1 -> run (e :: evs) st = run evs st1.
Proof. intros H. simpl. rewrite H. reflexivity. Qed.

(** An aborted producer that receives the source's answer returns. *)
Lemma aborted_producer_returns st ru :
  producer st = Some (AwaitSource ru) -> aborted st = true ->
  exists st1,
    step ProducerRuns st = Some st1 /\ producerSettled st1 = true /\
    cache st1 = cache st /\ yielded st1 = yielded st /\
    generator st1 = generator st /\
    (List.length (upcoming (sourceIterator st))
     <= 1 + List.length (upcoming (sourceIterator st1)))%nat.
Proof.
  intros Hp Ha. simpl. unfold producerStep, producerBody. rewrite Hp.
  destruct (upcoming (sourceIterator st)) as [|r rest] eqn:Hu;
    [destruct (failure (sourceIterator st)) as [err|] |];
    simpl; rewrite ?Ha; eexists; (split; [reflexivity |]);
    unfold producerSettled; simpl; rewrite ?Hu; simpl; repeat split; lia.
Qed.

(** A released producer that is not held by its stamp goes back to the
    source. *)
Lemma released_producer_asks_again st :
  atWriteWait st = true -> holdsStampPastHorizon st = false ->
  waiting ProducerTask (writeSignal st) = false ->
  exists st1 ru,
    step ProducerRuns st = Some st1 /\ producer st1 = Some (AwaitSource ru) /\
    cache st1 = cache st /\ yielded st1 = yielded st /\
    generator st1 = generator st /\ aborted st1 = aborted st /\
    sourceIterator st1 = sourceIterator st.
Proof.
  unfold atWriteWait, holdsStampPastHorizon, horizon. intros Hw Hh Hn.
  simpl. unfold producerStep, stampLoop.
  destruct (producer st) as [[ru | s ru | ru | | err]|]; try discriminate;
    rewrite Hn, ?Hh; eexists _, _; (split; [reflexivity |]);
    simpl; repeat split; reflexivity.
Qed.

(** The generator resumes from [stopProducer] once the promise has settled. *)
Lemma stopping_generator_completes st :
  generator st = Stopping -> producerSettled st = true ->
  exists st1,
    step GeneratorRuns st = Some st1 /\ completed st1 = true /\
    cache st1 = cache st /\ yielded st1 = yielded st /\
    sourceIterator st1 = sourceIterator st /\
    (producer st1 = None \/ exists err, producer st1 = Some (Rejected err)).
Proof.
  unfold producerSettled. intros Hg Hs. simpl. unfold generatorStep. rewrite Hg.
  destruct (producer st) as [[ru | s ru | ru | | err]|] eqn:E; try discriminate;
    eexists; (split; [reflexivity |]); unfold completed; simpl;
    repeat split; try reflexivity.
  - left. reflexivity.
  - right. exists err. assumption.
Qed.

(** X4.  [stopProducer] on a producer that is not held by a stamp past the
    horizon: the producer needs at most two turns to return, in which it
    enqueues nothing and takes at most one more result from the source (which
    it discards); the generator then completes, and unless the source threw
    the stored promise is cleared. *)
Theorem stopProducer_completes st :
  producer st <> None ->
  holdsStampPastHorizon st = false ->
  exists evs st',
    run evs (generatorFinally st) = Some st' /\
    (List.length evs <= 3)%nat /\
    completed st' = true /\
    cache st' = cache st /\ yielded st' = yielded st /\
    (List.length (upcoming (sourceIterator st))
     <= 1 + List.length (upcoming (sourceIterator st')))%nat /\
    (producer st' = None \/ exists err, producer st' = Some (Rejected err)).
Proof.
  intros Hp Hh.
  set (st0 := generatorFinally st).
  assert (Hg0 : generator st0 = Stopping) by reflexivity.
  assert (Ha0 : aborted st0 = true) by reflexivity.
  assert (Hw0 : waiting ProducerTask (writeSignal st0) = false) by reflexivity.
  assert (Hp0 : producer st0 = producer st) by reflexivity.
  assert (Hc0 : cache st0 = cache st) by reflexivity.
  assert (Hy0 : yielded st0 = yielded st) by reflexivity.
  assert (Hs0 : sourceIterator st0 = sourceIterator st) by reflexivity.
  assert (Hh0 : holdsStampPastHorizon st0 = holdsStampPastHorizon st) by reflexivity.
  assert (Hat0 : atWriteWait st0 = atWriteWait st) by reflexivity.
  assert (Hst0 : producerSettled st0 = producerSettled st) by reflexivity.
  clearbody st0.
  destruct (producerSettled st) eqn:Hset.
  - (* already settled *)
    destruct (stopping_generator_completes st0 Hg0 (eq_trans Hst0 eq_refl))
      as (st1 & H1 & Hcmp & Hc1 & Hy1 & Hs1 & Hpr).
    exists [GeneratorRuns], st1. rewrite (run_cons _ _ _ _ H1). simpl.
    rewrite Hc1, Hy1, Hs1, Hc0, Hy0, Hs0. repeat split; try assumption; lia.
  - destruct (atWriteWait st) eqn:Hat.
    + (* released from writeSignal, then the source answers *)
      destruct (released_producer_asks_again st0)
        as (st1 & ru & H1 & Hp1 & Hc1 & Hy1 & Hg1 & Ha1 & Hs1); try congruence.
      destruct (aborted_producer_returns st1 ru Hp1 (eq_trans Ha1 Ha0))
        as (st2 & H2 & Hset2 & Hc2 & Hy2 & Hg2 & Hlen).
      destruct (stopping_generator_completes st2
                  (eq_trans Hg2 (eq_trans Hg1 Hg0)) Hset2)
        as (st3 & H3 & Hcmp & Hc3 & Hy3 & Hs3 & Hpr).
      exists [ProducerRuns; ProducerRuns; GeneratorRuns], st3.
      rewrite (run_cons _ _ _ _ H1), (run_cons _ _ _ _ H2), (run_cons _ _ _ _ H3).
      simpl. rewrite Hc3, Hy3, Hs3, Hc2, Hy2, Hc1, Hy1, Hc0, Hy0.
      rewrite Hs1, Hs0 in Hlen. repeat split; try assumption; lia.
    + (* waiting for the source *)
      assert (exists ru, producer st0 = Some (AwaitSource ru)) as (ru & Hru).
      { rewrite Hp0. unfold producerSettled, atWriteWait in *.
        destruct (producer st) as [[ru | s ru | ru | | err]|];
          try discriminate; try congruence. eexists; reflexivity. }
      destruct (aborted_producer_returns st0 ru Hru Ha0)
        as (st2 & H2 & Hset2 & Hc2 & Hy2 & Hg2 & Hlen).
      destruct (stopping_generator_completes st2 (eq_trans Hg2 Hg0) Hset2)
        as (st3 & H3 & Hcmp & Hc3 & Hy3 & Hs3 & Hpr).
      exists [ProducerRuns; GeneratorRuns], st3.
      rewrite (run_cons _ _ _ _ H2), (run_cons _ _ _ _ H3).
      simpl. rewrite Hc3, Hy3, Hs3, Hc2, Hy2, Hc0, Hy0.
      rewrite Hs0 in Hlen. repeat split; try assumption; lia.
Qed.

Lemma run_initResult evs : forall st st',
  run evs st = Some st' -> initResult st' = initResult st.
Proof.
  induction evs as [|e evs IH]; simpl; intros st st' H.
  - injection H as <-. reflexivity.
  - destruct (step e st) as [st1|] eqn:He; [| discriminate].
    rewrite (IH _ _ H). clear - He. destruct e; step_inv He; reflexivity.
Qed.

Lemma messageIterator_initResult args st st0 :
  messageIterator args st = Returns st0 ->
  initResult st0 = initResult st /\ initResult st <> None.
Proof.
  unfold messageIterator, startProducer.
  destruct (initResult st) as [init|] eqn:Hi; [| discriminate].
  destruct (producer st); [discriminate |]. simpl. rewrite Hi.
  destruct (Nat.eqb _ _); simpl; intros H; injection H as <-; simpl;
    (split; [assumption | discriminate]).
Qed.

(** The producer's own turns leave its promise stored. *)
Lemma producer_turns_keep_promise k : forall st st',
  run (repeat ProducerRuns k) st = Some st' ->
  producer st <> None ->
  producer st' <> None /\ aborted st' = aborted st.
Proof.
  induction k as [|k IH]; simpl; intros st st' H Hp.
  - injection H as <-. auto.
  - destruct (producerStep st) as [st1|] eqn:He; [| discriminate].
    assert (H1 : producer st1 <> None /\ aborted st1 = aborted st).
    { clear - He. change (step ProducerRuns st = Some st1) in He.
      step_inv He; simpl; split; solve [discriminate | reflexivity | assumption]. }
    destruct H1 as [Hp1 Ha1]. destruct (IH _ _ H Hp1) as [Hp' Ha'].
    split; [assumption | congruence].
Qed.

(** X5.  A generator closed before its first [next()] never runs its body,
    so its [finally] block and [stopProducer] do not run either: the
    producer started by [messageIterator] is left as it is and the session
    is not aborted.  The promise stays stored through every further turn of
    the producer, so [messageIterator] throws, at once and after any number
    of such turns. *)
Theorem return_before_next_keeps_producer args st st0 :
  messageIterator args st = Returns st0 ->
  exists st1,
    callReturn st0 = Some st1 /\
    generator st1 = Completed None /\
    producer st1 = producer st0 /\ producer st1 <> None /\
    aborted st1 = false /\
    forall k st',
      run (repeat ProducerRuns k) st1 = Some st' ->
      producer st' <> None /\ aborted st' = false /\
      forall args',
        messageIterator args' st'
        = Throws "Invariant: BufferedIterableSource allows only one messageIterator".
Proof.
  intros Hit.
  destruct (messageIterator_returns _ _ _ Hit)
    as (Hg & _ & _ & Hab & _ & _ & _ & _ & Hcases).
  assert (Hp : producer st0 <> None).
  { destruct Hcases as [(_ & -> & _) | (_ & _ & _ & (ru & ->) & _)]; discriminate. }
  destruct (messageIterator_initResult _ _ _ Hit) as [Hi Hn].
  unfold callReturn. rewrite Hg. eexists. split; [reflexivity |]. simpl.
  repeat (split; [first [assumption | reflexivity] |]).
  intros k st' Hrun.
  destruct (producer_turns_keep_promise _ _ _ Hrun Hp) as [Hp' Ha'].
  simpl in Ha'.
  split; [assumption |]. split; [congruence |].
  intros args'. unfold messageIterator.
  rewrite (run_initResult _ _ _ Hrun). simpl. rewrite Hi.
  destruct (initResult st); [| contradiction].
  destruct (producer st'); [reflexivity | contradiction].
Qed.

(** X6.  With no topic the source is never asked: the first [next()] ends
    the iteration, nothing is yielded, the queue is not touched, and the
    instance is free for the next [messageIterator]. *)
Theorem no_topics_no_results args st st0 :
  topics args = [] ->
  messageIterator args st = Returns st0 ->
  exists st',
    run [CallNext; GeneratorRuns] st0 = Some st' /\
    generator st' = Completed None /\ yielded st' = [] /\
    producer st' = None /\
    cache st' = cache st /\ sourceIterator st' = sourceIterator st.
Proof.
  intros Ht Hit.
  destruct (messageIterator_no_topics _ _ _ Ht Hit)
    as (Hg & Ha & Hp & Hy & Hc & Hs).
  clear Hit.
  assert (H1 : step CallNext st0 = Some (generatorFinally st0)).
  { simpl. unfold callNext. rewrite Hg, Ha, Ht. reflexivity. }
  assert (H2 : step GeneratorRuns (generatorFinally st0)
               = Some (set_generator (Completed None)
                         (set_producer None (generatorFinally st0)))).
  { simpl. unfold generatorStep.
    change (generator (generatorFinally st0)) with Stopping.
    change (producer (generatorFinally st0)) with (producer st0).
    rewrite Hp. reflexivity. }
  eexists. rewrite (run_cons _ _ _ _ H1), (run_cons _ _ _ _ H2).
  split; [reflexivity |].
  change (generator (set_generator (Completed None)
            (set_producer None (generatorFinally st0)))) with (Completed None).
  change (yielded (set_generator (Completed None)
            (set_producer None (generatorFinally st0)))) with (yielded st0).
  change (producer (set_generator (Completed None)
            (set_producer None (generatorFinally st0)))) with (@None ProducerState).
  change (cache (set_generator (Completed None)
            (set_producer None (generatorFinally st0)))) with (cache st0).
  change (sourceIterator (set_generator (Completed None)
            (set_producer None (generatorFinally st0)))) with (sourceIterator st0).
  repeat split; assumption.
Qed.

(** *** The read head *)

Lemma step_readHead_last d e st st' :
  step e st = Some st' ->
  readHead st = last (map resultTime (yielded st)) d ->
  readHead st' = last (map resultTime (yielded st')) d.
Proof.
  intros H Hr. apply step_moves in H.
  destruct H as [Hy Hh _ | l1 s l2 Hy Hh _ _ | l1 x l2 Hy Hh _ _
                | x rest _ _ Hy Hh]; rewrite Hy, Hh; try assumption.
  rewrite map_app. simpl. rewrite last_last. reflexivity.
Qed.

(** X7.  The read head is the time of the last result handed to the caller,
    and the start time of the session before the first. *)
Theorem readHead_is_last_yielded args st st0 evs st' :
  messageIterator args st = Returns st0 ->
  run evs st0 = Some st' ->
  readHead st' = last (map resultTime (yielded st')) (startOf args st).
Proof.
  intros Hit Hrun.
  destruct (messageIterator_returns _ _ _ Hit) as (_ & Hy & _ & _ & Hh & _).
  assert (H0 : readHead st0 = last (map resultTime (yielded st0)) (startOf args st)).
  { rewrite Hy, Hh. reflexivity. }
  clear Hit Hy Hh. revert st0 Hrun H0.
  induction evs as [|e evs IH]; simpl; intros st0 Hrun H0.
  - injection Hrun as <-. assumption.
  - destruct (step e st0) as [st1|] eqn:He; [| discriminate].
    apply (IH st1 Hrun). eapply step_readHead_last; eassumption.
Qed.

Lemma compare_refl t : compare t t = 0.
Proof. unfold compare. rewrite Z.sub_diag. simpl. lia. Qed.

Lemma step_readHead_le e st st' :
  step e st = Some st' -> tidy st -> compare (readHead st) (readHead st') <= 0.
Proof.
  intros H (_ & _ & _ & Hall). apply step_moves in H.
  destruct H as [_ Hh _ | l1 s l2 _ Hh _ _ | l1 x l2 _ Hh _ _
                | x rest Hp _ _ Hh]; rewrite Hh; try (rewrite compare_refl; lia).
  rewrite Hp in Hall. inversion Hall as [|? ? [_ Hle] _]. assumption.
Qed.

Lemma run_readHead_le evs : forall st st',
  run evs st = Some st' -> tidy st -> compare (readHead st) (readHead st') <= 0.
Proof.
  induction evs as [|e evs IH]; simpl; intros st st' H Ht.
  - injection H as <-. rewrite compare_refl. lia.
  - destruct (step e st) as [st1|] eqn:He; [| discriminate].
    eapply compare_trans.
    + eapply step_readHead_le; eassumption.
    + apply IH; [assumption | eapply step_tidy; eassumption].
Qed.

(** X8.  Over a source that emits in non-decreasing time order, nothing
    earlier than the start time, the read head never moves backwards. *)
Theorem readHead_never_goes_back args st st0 evs1 st1 evs2 st2 :
  topics args <> [] ->
  wfTime (startOf args st) -> wfTime (readAheadDuration st) ->
  Sorted timeLe (upcoming (source st (topics args) (startOf args st))) ->
  Forall (fun r => wfTime (resultTime r) /\
                   compare (startOf args st) (resultTime r) <= 0)
         (upcoming (source st (topics args) (startOf args st))) ->
  messageIterator args st = Returns st0 ->
  run evs1 st0 = Some st1 -> run evs2 st1 = Some st2 ->
  compare (readHead st1) (readHead st2) <= 0.
Proof.
  intros Ht Hws Hwd Hsrc Hall Hit Hrun1 Hrun2.
  destruct (messageIterator_returns _ _ _ Hit)
    as (Hg & Hy & _ & Hab & Hrh & _ & _ & Hd & [(Ht' & _) | (_ & Hc & _ & (ru & Hp) & Hs)]);
    [contradiction |].
  assert (Htidy : tidy st0).
  { unfold tidy, ordered, pendingResults, held. rewrite Hy, Hc, Hp, Hs, Hrh, Hd. simpl.
    split; [apply Sorted_StronglySorted; [exact timeLe_Transitive | assumption] |].
    auto. }
  apply (run_readHead_le evs2); [assumption |].
  eapply run_tidy; eassumption.
Qed.

(** *** The queue *)

Lemma step_queue_grows e st st' :
  step e st = Some st' ->
  exists handed more,
    yielded st' = yielded st ++ handed /\
    yielded st' ++ cache st' = (yielded st ++ cache st) ++ more.
Proof.
  intros H. destruct e; step_inv H; unfold enqueue; simpl.
  all: repeat match goal with
         | H : cache _ = _ |- _ => rewrite H in *
         end.
  all: first
    [ exists [], []; rewrite !app_nil_r; split; reflexivity
    | eexists [], [_]; rewrite !app_nil_r, ?app_assoc; split; reflexivity
    | eexists [_], []; rewrite !app_nil_r, <- ?app_assoc; split; reflexivity ].
Qed.

(** X9.  First in, first out: along a session the results handed to the
    caller only grow at the end, and so does the sequence of results handed
    out followed by the results still queued.  Nothing that entered the
    queue is lost, reordered or handed out twice. *)
Theorem queue_is_fifo evs : forall st st',
  run evs st = Some st' ->
  exists handed more,
    yielded st' = yielded st ++ handed /\
    yielded st' ++ cache st' = (yielded st ++ cache st) ++ more.
Proof.
  induction evs as [|e evs IH]; simpl; intros st st' H.
  - injection H as <-. exists [], []. rewrite !app_nil_r. auto.
  - destruct (step e st) as [st1|] eqn:He; [| discriminate].
    destruct (step_queue_grows _ _ _ He) as (h1 & m1 & Hy1 & Hq1).
    destruct (IH _ _ H) as (h2 & m2 & Hy2 & Hq2).
    exists (h1 ++ h2), (m1 ++ m2). split.
    + rewrite Hy2, Hy1, app_assoc. reflexivity.
    + rewrite Hq2, Hq1, !app_assoc. reflexivity.
Qed.

(** *** A source that throws *)

Lemma step_failsWith f e st st' :
  step e st = Some st' -> failsWith f st -> failsWith f st'.
Proof.
  intros H (Hr & Hg & Hf).
  destruct e; step_inv H; unfold failsWith, producerRunning in *; simpl in *.
  all: repeat match goal with
         | H : producer _ = _ |- _ => rewrite H in *
         | H : generator _ = _ |- _ => rewrite H in *
         end; simpl in *.
  all: repeat split; intros; try discriminate; auto.
  all: try solve [match goal with
                  | H : Some _ = Some _ |- _ => injection H as <-
                  end; rewrite <- (Hf eq_refl); congruence].
  all: try solve [match goal with
                  | H : Some _ = Some _ |- _ => injection H as <-
                  end; assumption].
  all: try solve [apply Hr; congruence].
  all: try solve [apply Hg; congruence].
  all: try congruence.
  all: try solve [match goal with
                  | H : generator _ = Completed _ |- _ =>
                      specialize (Hg _ H); congruence
                  end].
  all: try solve [match goal with
                  | H : _ = Some (Rejected _) |- _ =>
                      destruct (Hr _ H); first [assumption | congruence]
                  end].
Qed.

Lemma run_failsWith f evs : forall st st',
  run evs st = Some st' -> failsWith f st -> failsWith f st'.
Proof.
  induction evs as [|e evs IH]; simpl; intros st st' H Hs.
  - inversion H; subst; exact Hs.
  - destruct (step e st) as [st1|] eqn:He; [| discriminate].
    eapply IH; eauto using step_failsWith.
Qed.

(** X10.  An error the caller gets from the generator is the error the
    wrapped source threw, after all its results were taken; the rejected
    producer is left in place, so every later [messageIterator] throws. *)
Theorem caller_error_is_source_error args st st0 evs st' err :
  messageIterator args st = Returns st0 ->
  run evs st0 = Some st' ->
  generator st' = Completed (Some err) ->
  failure (source st (topics args) (startOf args st)) = Some err /\
  upcoming (sourceIterator st') = [] /\
  producer st' = Some (Rejected err) /\
  forall args',
    messageIterator args' st'
    = Throws "Invariant: BufferedIterableSource allows only one messageIterator".
Proof.
  intros Hit Hrun Hgen.
  assert (H0 : failsWith (failure (source st (topics args) (startOf args st))) st0).
  { destruct (messageIterator_returns _ _ _ Hit)
      as (Hg & _ & _ & _ & _ & _ & _ & _ &
          [(_ & Hp & _) | (_ & _ & _ & (ru & Hp) & Hs)]);
      unfold failsWith, producerRunning; rewrite Hp, Hg, ?Hs; simpl;
      repeat split; intros; discriminate. }
  destruct (run_failsWith _ _ _ _ Hrun H0) as (Hr & Hgn & _).
  pose proof (Hgn _ Hgen) as Hrej. destruct (Hr _ Hrej) as [Hf Hu].
  split4; try assumption.
  intros args'. unfold messageIterator.
  destruct (messageIterator_initResult _ _ _ Hit) as [Hi Hn].
  rewrite (run_initResult _ _ _ Hrun), Hi, Hrej.
  destruct (initResult st); [reflexivity | contradiction].
Qed.

(** X11.  [terminate] in the middle of a session strands it.  If the
    producer sleeps on [writeSignal] when the queue is cleared, the next
    [next()] finds nothing and sleeps on [readSignal].  From there no turn
    of the session is enabled: neither task can resume, and neither
    [next()] nor [return()] gets anywhere.  [terminate] notifies nobody;
    what wakes the producer is a direct call of [stopProducer]. *)
Theorem terminate_strands_session st :
  generator st = Yielded -> readDone st = false ->
  atWriteWait st = true -> waiting ProducerTask (writeSignal st) = true ->
  exists st1,
    step CallNext (terminate st) = Some st1 /\
    generator st1 = ReadWait /\
    waiting ConsumerTask (readSignal st1) = true /\
    waiting ProducerTask (writeSignal st1) = true /\
    (forall e, step e st1 = None) /\
    exists st2, step ProducerRuns (stopProducer st1) = Some st2.
Proof.
  intros Hg Hd Ha Hw.
  exists (set_generator ReadWait
            (set_readSignal (wait ConsumerTask (readSignal (terminate st)))
                            (terminate st))).
  split; [| split; [| split; [| split; [| split]]]].
  - simpl. unfold callNext, generatorLoop, terminate. simpl. rewrite Hg, Hd.
    reflexivity.
  - reflexivity.
  - simpl. apply waiting_after_wait.
  - exact Hw.
  - intros e. unfold atWriteWait in Ha.
    destruct e; simpl;
      unfold producerStep, generatorStep, callNext, callReturn; simpl.
    + destruct (producer st) as [[| | | |]|]; try discriminate; rewrite Hw; reflexivity.
    + rewrite waiting_after_wait. reflexivity.
    + reflexivity.
    + reflexivity.
  - unfold atWriteWait in Ha. simpl. unfold producerStep. simpl.
    destruct (producer st) as [[| | | |]|]; try discriminate; eexists; reflexivity.
Qed.

(** *** The sample sessions *)

Lemma farSession_returns :
  messageIterator sampleArgs farInstance = Returns farSession.
Proof. vm_compute; reflexivity. Qed.

Lemma sample_instance_idle results fails : idle (sampleInstance results fails).
Proof. repeat split. Qed.

Lemma no_lost_wakeup_witness :
  let st' := after [ProducerRuns; ProducerRuns] farSession in
  (waiting ProducerTask (writeSignal st') = true ->
   cache st' <> [] /\ atWriteWait st' = true) /\
  (waiting ConsumerTask (readSignal st') = true ->
   cache st' = [] /\ readDone st' = false /\ generator st' = ReadWait /\
   producerRunning st' = true).
Proof.
  intros st'.
  apply (no_lost_wakeup sampleArgs farInstance farSession [ProducerRuns; ProducerRuns]).
  - apply sample_instance_idle.
  - exact farSession_returns.
  - vm_compute; reflexivity.
Defined.

Lemma pending_next_is_never_stuck_witness :
  let st' := after [CallNext] farSession in
  (waiting ConsumerTask (readSignal st') = true ->
   exists st'', step ProducerRuns st' = Some st'') /\
  (waiting ConsumerTask (readSignal st') = false ->
   exists st'', step GeneratorRuns st' = Some st'').
Proof.
  intros st'.
  apply (pending_next_is_never_stuck sampleArgs farInstance farSession [CallNext]).
  - apply sample_instance_idle.
  - exact farSession_returns.
  - vm_compute; reflexivity.
  - vm_compute; reflexivity.
Defined.

Lemma iterating_to_the_end_yields_everything_witness :
  let st := sampleInstance [msgAt 1] None in
  let evs := [ProducerRuns; ProducerRuns; CallNext; CallNext] in
  stutter (upcoming (source st (topics sampleArgs) (startOf sampleArgs st)))
          (yielded (after evs (sessionOf sampleArgs st))).
Proof.
  intros st evs.
  apply (iterating_to_the_end_yields_everything sampleArgs st
           (sessionOf sampleArgs st) evs).
  - discriminate.
  - vm_compute; reflexivity.
  - vm_compute; reflexivity.
  - intros [H | [H | [H | [H | []]]]]; discriminate H.
  - left. vm_compute; reflexivity.
Defined.

Lemma stopProducer_completes_witness :
  let st := after [ProducerRuns; CallNext] farSession in
  exists evs st',
    run evs (generatorFinally st) = Some st' /\
    (List.length evs <= 3)%nat /\
    completed st' = true /\
    cache st' = cache st /\ yielded st' = yielded st /\
    (List.length (upcoming (sourceIterator st))
     <= 1 + List.length (upcoming (sourceIterator st')))%nat /\
    (producer st' = None \/ exists err, producer st' = Some (Rejected err)).
Proof.
  intros st. apply (stopProducer_completes st).
  - vm_compute; discriminate.
  - vm_compute; reflexivity.
Defined.

Lemma return_before_next_keeps_producer_witness :
  exists st1,
    callReturn farSession = Some st1 /\
    generator st1 = Completed None /\
    producer st1 = producer farSession /\ producer st1 <> None /\
    aborted st1 = false /\
    forall k st',
      run (repeat ProducerRuns k) st1 = Some st' ->
      producer st' <> None /\ aborted st' = false /\
      forall args',
        messageIterator args' st'
        = Throws "Invariant: BufferedIterableSource allows only one messageIterator".
Proof.
  exact (return_before_next_keeps_producer sampleArgs farInstance farSession
           farSession_returns).
Defined.

Lemma no_topics_no_results_witness :
  let st := sampleInstance [msgAt 1] None in
  let args := mkArgs [] None in
  exists st',
    run [CallNext; GeneratorRuns] (sessionOf args st) = Some st' /\
    generator st' = Completed None /\ yielded st' = [] /\
    producer st' = None /\
    cache st' = cache st /\ sourceIterator st' = sourceIterator st.
Proof.
  intros st args. apply (no_topics_no_results args st (sessionOf args st)).
  - reflexivity.
  - vm_compute; reflexivity.
Defined.

Lemma readHead_is_last_yielded_witness :
  let st' := after [ProducerRuns; CallNext] farSession in
  readHead st'
  = last (map resultTime (yielded st')) (startOf sampleArgs farInstance).
Proof.
  intros st'.
  apply (readHead_is_last_yielded sampleArgs farInstance farSession [ProducerRuns; CallNext]).
  - exact farSession_returns.
  - vm_compute; reflexivity.
Defined.

Lemma readHead_never_goes_back_witness :
  compare (readHead (after [ProducerRuns] farSession))
          (readHead (after [ProducerRuns; CallNext] farSession)) <= 0.
Proof.
  apply (readHead_never_goes_back sampleArgs farInstance farSession
           [ProducerRuns] _ [CallNext] _).
  - discriminate.
  - apply wfTimeb_spec. reflexivity.
  - apply wfTimeb_spec. reflexivity.
  - exact sample_sorted_1_50_60.
  - repeat constructor; try (apply wfTimeb_spec; reflexivity);
      vm_compute; discriminate.
  - exact farSession_returns.
  - vm_compute; reflexivity.
  - vm_compute; reflexivity.
Defined.

Lemma queue_is_fifo_witness :
  let st' := after [ProducerRuns; CallNext; ProducerRuns] farSession in
  exists handed more,
    yielded st' = yielded farSession ++ handed /\
    yielded st' ++ cache st' = (yielded farSession ++ cache farSession) ++ more.
Proof.
  intros st'.
  apply (queue_is_fifo [ProducerRuns; CallNext; ProducerRuns] farSession st').
  vm_compute; reflexivity.
Defined.

Lemma caller_error_is_source_error_witness :
  let st := sampleInstance [msgAt 1] (Some "boom"%string) in
  let evs := [ProducerRuns; ProducerRuns; CallNext; CallNext; GeneratorRuns] in
  let st' := after evs (sessionOf sampleArgs st) in
  failure (source st (topics sampleArgs) (startOf sampleArgs st))
  = Some "boom"%string /\
  upcoming (sourceIterator st') = [] /\
  producer st' = Some (Rejected "boom") /\
  forall args',
    messageIterator args' st'
    = Throws "Invariant: BufferedIterableSource allows only one messageIterator".
Proof.
  intros st evs st'.
  apply (caller_error_is_source_error sampleArgs st (sessionOf sampleArgs st) evs).
  - vm_compute; reflexivity.
  - vm_compute; reflexivity.
  - vm_compute; reflexivity.
Defined.

Lemma terminate_strands_session_witness :
  let st := after [ProducerRuns; CallNext; ProducerRuns] farSession in
  exists st1,
    step CallNext (terminate st) = Some st1 /\
    generator st1 = ReadWait /\
    waiting ConsumerTask (readSignal st1) = true /\
    waiting ProducerTask (writeSignal st1) = true /\
    (forall e, step e st1 = None) /\
    exists st2, step ProducerRuns (stopProducer st1) = Some st2.
Proof.
  intros st. apply (terminate_strands_session st); vm_compute; reflexivity.
Defined.

End BufferedMore.


(* ===================================================================== *)
(** ** CachedFilelike: more of the reader *)
(* ===================================================================== *)

Module FilelikeMore.
Import Filelike FilelikeFacts.

Section Reader.
Context {collaborators : Collaborators}.

(** *** [_updateState], whatever the state *)

Lemma updateState_shape st :
  _lastErrorTime (stateOf (_updateState st)) = _lastErrorTime st /\
  _keepReconnectingCallback (stateOf (_updateState st))
  = _keepReconnectingCallback st /\
  _closed (stateOf (_updateState st)) = _closed st /\
  _fileSize (stateOf (_updateState st)) = _fileSize st /\
  exists resolved opened,
    effects (stateOf (_updateState st)) = effects st ++ resolved ++ opened /\
    forallb isResolution resolved = true /\
    ((opened = [] /\
      _currentConnection (stateOf (_updateState st)) = _currentConnection st /\
      nextStream (stateOf (_updateState st)) = nextStream st) \/
     (exists r,
        _currentConnection (stateOf (_updateState st))
        = Some (mkConnection (nextStream st) r r 0) /\
        nextStream (stateOf (_updateState st)) = S (nextStream st) /\
        opened = match _currentConnection st with
                 | Some c => [Destroyed (stream c)]
                 | None => []
                 end ++
                 [Fetched (nextStream st) (range_start r)
                          (range_end r - range_start r)])).
Proof.
  destruct (_closed st) eqn:Hc.
  - unfold _updateState. rewrite Hc. simpl.
    repeat (split; [first [assumption | reflexivity] |]).
    exists [], []. rewrite app_nil_r.
    split; [reflexivity |]. split; [reflexivity |]. left. repeat split.
  - destruct (_fileSize st) as [n|] eqn:Hs.
    + destruct (updateState_opened st n Hs Hc)
        as (st' & resolved & opened & Hu & He & Hr & Hc' & Hs' & Hl & Hk & Hcase).
      rewrite Hu. simpl.
      repeat (split; [congruence |]).
      exists resolved, opened. repeat (split; [assumption |]). exact Hcase.
    + unfold _updateState. rewrite Hc.
      destruct (resolveRequests _ _ _) as [[[kept out] lastEnd] buffer] eqn:E.
      pose proof (resolveRequests_resolves _ _ _ _ _ _ _ E) as Hout.
      unfold sizeOf. simpl. rewrite Hs. simpl.
      repeat (split; [first [assumption | reflexivity] |]).
      exists out, []. rewrite app_nil_r.
      split; [reflexivity |]. split; [assumption |]. left. repeat split.
Qed.

(** *** Histories, piece by piece *)

Lemma fetchedStreams_app l l' :
  fetchedStreams (l ++ l') = fetchedStreams l ++ fetchedStreams l'.
Proof. apply flat_map_app. Qed.

Lemma destroyedStreams_app l l' :
  destroyedStreams (l ++ l') = destroyedStreams l ++ destroyedStreams l'.
Proof. apply flat_map_app. Qed.

Lemma reconnectFlags_app l l' :
  reconnectFlags (l ++ l') = reconnectFlags l ++ reconnectFlags l'.
Proof. apply flat_map_app. Qed.

Lemma resolutions_silent l :
  forallb isResolution l = true ->
  fetchedStreams l = [] /\ destroyedStreams l = [] /\ reconnectFlags l = [].
Proof.
  induction l as [|e l IH]; simpl; [auto |].
  intros H. apply andb_true_iff in H as [He Hl].
  destruct e; try discriminate He. simpl. auto.
Qed.

Lemma rejections_silent (f : ReadRequest -> Effect) l :
  (forall r, isRejection (f r) = true) ->
  fetchedStreams (map f l) = [] /\ destroyedStreams (map f l) = [] /\
  reconnectFlags (map f l) = [].
Proof.
  intros Hf. induction l as [|r l IH]; simpl; [auto |].
  specialize (Hf r). destruct (f r); try discriminate Hf. simpl. auto.
Qed.

Lemma alternates_snoc l : forall b x,
  alternates b (l ++ [x]) <->
  alternates b l /\ x = (if Nat.even (List.length l) then b else negb b).
Proof.
  induction l as [|y l IH]; intros b x.
  - simpl. tauto.
  - cbn [app alternates List.length].
    rewrite IH, Nat.even_succ, <- Nat.negb_even, negb_involutive.
    destruct (Nat.even (List.length l)); simpl; tauto.
Qed.

(** *** What keeps the invariants *)

(** A change that fetches nothing: the connection stays, is replaced by
    nothing after its stream was destroyed, or goes on with its stream. *)
Lemma oneConnection_frame st st' extra :
  oneConnection st ->
  effects st' = effects st ++ extra ->
  fetchedStreams extra = [] ->
  nextStream st' = nextStream st ->
  (destroyedStreams extra = [] /\
   (_currentConnection st' = _currentConnection st \/
    exists c c', _currentConnection st = Some c /\
                 _currentConnection st' = Some c' /\ stream c' = stream c)) \/
  (exists c, _currentConnection st = Some c /\
             destroyedStreams extra = [stream c] /\
             _currentConnection st' = None) ->
  oneConnection st'.
Proof.
  intros (Hnd & Hlt & Hdl & Hcur & Hlive) He Hf Hn Hcase.
  unfold oneConnection.
  rewrite He, Hn, fetchedStreams_app, destroyedStreams_app, Hf, app_nil_r.
  split; [assumption |]. split; [assumption |].
  destruct Hcase as [(Hd & Hc) | (c & Hc & Hd & Hc')]; rewrite Hd.
  - rewrite app_nil_r. split; [assumption |].
    destruct Hc as [Hc | (c & c' & Hc & Hc' & Hs)].
    + rewrite Hc. auto.
    + split.
      * intros c0 H0. rewrite Hc' in H0. injection H0 as <-.
        rewrite Hs. auto.
      * intros s Hin. destruct (Hlive s Hin) as [|(c0 & H0 & H1)]; [auto |].
        right. exists c'. split; [assumption |]. congruence.
  - split.
    + intros s Hin. apply in_app_or in Hin as [Hin | [<- | []]]; [auto |].
      apply (Hcur c Hc).
    + split; [intros c0 H0; congruence |].
      intros s Hin. left. apply in_or_app.
      destruct (Hlive s Hin) as [|(c0 & H0 & H1)]; [auto |].
      right. left. congruence.
Qed.

Lemma oneConnection_updateState st :
  oneConnection st -> oneConnection (stateOf (_updateState st)).
Proof.
  intros Hinv.
  destruct (updateState_shape st)
    as (_ & _ & _ & _ & resolved & opened & He & Hr & Hcase).
  destruct (resolutions_silent _ Hr) as (Hrf & Hrd & _).
  destruct Hcase as [(-> & Hc & Hn) | (r & Hc & Hn & ->)].
  - apply (oneConnection_frame st _ (resolved ++ [])); auto.
    + rewrite fetchedStreams_app, Hrf. reflexivity.
    + left. rewrite destroyedStreams_app, Hrd. auto.
  - destruct Hinv as (Hnd & Hlt & Hdl & Hcur & Hlive).
    unfold oneConnection.
    rewrite He, Hn, Hc, !fetchedStreams_app, !destroyedStreams_app, Hrf, Hrd.
    simpl.
    assert (Hfo : fetchedStreams
                    (match _currentConnection st with
                     | Some c => [Destroyed (stream c)]
                     | None => []
                     end) = []) by (destruct (_currentConnection st); reflexivity).
    rewrite Hfo. simpl. rewrite !app_nil_r.
    assert (Hdo : forall s,
              In s (destroyedStreams
                      (match _currentConnection st with
                       | Some c => [Destroyed (stream c)]
                       | None => []
                       end)) <->
              exists c, _currentConnection st = Some c /\ stream c = s).
    { intros s. destruct (_currentConnection st) as [c|]; simpl.
      - split.
        + intros [<- | []]. eauto.
        + intros (c0 & H0 & <-). injection H0 as <-. auto.
      - split; [intros [] | intros (c0 & H0 & _); discriminate]. }
    split.
    { apply NoDup_app; [assumption | repeat constructor; intros [] |].
      intros s Hin [<- | []]. apply Hlt in Hin. lia. }
    split.
    { intros s Hin. apply in_app_or in Hin as [Hin | [<- | []]]; [| lia].
      apply Hlt in Hin. lia. }
    split.
    { intros s Hin. apply in_app_or in Hin as [Hin | Hin].
      - apply Hdl in Hin. lia.
      - apply Hdo in Hin as (c & H0 & <-). apply Hcur in H0. lia. }
    split.
    { intros c0 H0. injection H0 as <-. simpl. split; [lia |].
      intros Hin. apply in_app_or in Hin as [Hin | Hin].
      - apply Hdl in Hin. lia.
      - apply Hdo in Hin as (c & H0 & H1). apply Hcur in H0. lia. }
    intros s Hin. apply in_app_or in Hin as [Hin | [<- | []]].
    + destruct (Hlive s Hin) as [Hd | Hc0].
      * left. apply in_or_app. auto.
      * left. apply in_or_app. right. apply Hdo. assumption.
    + right. eexists. split; reflexivity.
Qed.

Ltac history :=
  simpl; first [ rewrite <- ?app_assoc; reflexivity | symmetry; apply app_nil_r ].

Lemma handle_oneConnection e st :
  oneConnection st -> oneConnection (handle e st).
Proof.
  intros Hinv. destruct e as [s error now | s chunk | r id now | err id]; simpl.
  - unfold onError.
    destruct (_currentConnection st) as [c|] eqn:Hc; [| assumption].
    destruct (negb (Nat.eqb s (stream c))); [assumption |].
    destruct (_keepReconnectingCallback st), (_lastErrorTime st) as [t|];
      try destruct (now - t <? 100);
      try (apply oneConnection_updateState;
           eapply (oneConnection_frame st);
           [ eassumption | history | reflexivity | reflexivity
           | right; exists c; repeat split; assumption ]).
    simpl. eapply (oneConnection_frame st);
      [ eassumption | history | | reflexivity | ].
    + apply rejections_silent. reflexivity.
    + left. split; [apply rejections_silent; reflexivity | left; reflexivity].
  - unfold onData.
    destruct (_currentConnection st) as [c|] eqn:Hc; [| assumption].
    destruct (Nat.eqb_spec s (stream c)) as [-> |]; [| assumption]. simpl.
    apply oneConnection_updateState.
    destruct (_lastErrorTime st), (_keepReconnectingCallback st) eqn:Hk; simpl;
      rewrite ?Hk; simpl;
      match goal with
      | |- context [hasData ?b ?x ?y] => destruct (hasData b x y)
      end;
      (eapply (oneConnection_frame st);
       [ eassumption | history | reflexivity | reflexivity
       | first [ right; exists c; repeat split; assumption
               | left; split; [reflexivity |]; right;
                 exists c; eexists; split; [exact Hc | split; reflexivity] ] ]).
  - unfold readOpened. destruct (sizeOf st) as [err | n]; simpl.
    + eapply (oneConnection_frame st);
        [ eassumption | history | reflexivity | reflexivity | auto ].
    + destruct (range_end r >? n); simpl.
      * eapply (oneConnection_frame st);
          [ eassumption | history | reflexivity | reflexivity | auto ].
      * assert (H : oneConnection
                      (stateOf (_updateState
                         (set_readRequests
                            (_readRequests st ++ [mkReadRequest r id now]) st)))).
        { apply oneConnection_updateState.
          eapply (oneConnection_frame st);
            [ eassumption | history | reflexivity | reflexivity | auto ]. }
        destruct (_updateState _) as [st' | e st']; simpl in *; [assumption |].
        eapply (oneConnection_frame st');
          [ eassumption | history | reflexivity | reflexivity | auto ].
  - eapply (oneConnection_frame st);
      [ eassumption | history | reflexivity | reflexivity | auto ].
Qed.

Lemma handleAll_oneConnection evs : forall st,
  oneConnection st -> oneConnection (handleAll evs st).
Proof.
  induction evs as [|e evs IH]; simpl; intros st H; [assumption |].
  apply IH, handle_oneConnection, H.
Qed.

Lemma open_effects fileSize st :
  effects (open fileSize st) = effects st \/
  effects (open fileSize st) = effects st ++ [OpenCalled].
Proof.
  unfold open, openResumed, openCalled.
  destruct (_fileSize st); [auto |]. simpl.
  destruct (covers _ _); [auto |].
  destruct (_cacheSizeInBytes st); auto.
Qed.

Lemma open_fields fileSize st :
  _currentConnection (open fileSize st) = _currentConnection st /\
  nextStream (open fileSize st) = nextStream st /\
  _lastErrorTime (open fileSize st) = _lastErrorTime st /\
  _keepReconnectingCallback (open fileSize st) = _keepReconnectingCallback st /\
  _closed (open fileSize st) = _closed st /\
  _readRequests (open fileSize st) = _readRequests st.
Proof.
  unfold open, openResumed, openCalled.
  destruct (_fileSize st); [repeat split |]. simpl.
  destruct (covers _ _); [repeat split |].
  destruct (_cacheSizeInBytes st); repeat split.
Qed.

Lemma open_oneConnection fileSize cacheSize callback :
  oneConnection (open fileSize (constructor cacheSize callback)).
Proof.
  destruct (open_fields fileSize (constructor cacheSize callback))
    as (Hc & Hn & _).
  unfold oneConnection. rewrite Hc, Hn.
  destruct (open_effects fileSize (constructor cacheSize callback)) as [-> | ->];
    simpl; (split; [apply NoDup_nil |]);
    (split; [intros ? [] |]); (split; [intros ? [] |]);
    (split; [intros ? H; discriminate H | intros ? []]).
Qed.

(** *** The keep-reconnecting callback *)

(** A change that tells the callback nothing. *)
Lemma toggles_quiet callback st st' extra :
  toggles callback st ->
  effects st' = effects st ++ extra ->
  reconnectFlags extra = [] ->
  _keepReconnectingCallback st' = _keepReconnectingCallback st ->
  (callback = true -> (_lastErrorTime st' = None <-> _lastErrorTime st = None)) ->
  toggles callback st'.
Proof.
  intros (Hk & Ha & Hf & Hl) He Hx Hk' Hl'. unfold toggles.
  rewrite He, reconnectFlags_app, Hx, app_nil_r, Hk'.
  repeat (split; [assumption |]).
  intros Hc. rewrite (Hl' Hc). auto.
Qed.

(** A change that tells the callback [flag]. *)
Lemma toggles_told flag st st' extra :
  toggles true st ->
  effects st' = effects st ++ extra ->
  reconnectFlags extra = [flag] ->
  _keepReconnectingCallback st' = _keepReconnectingCallback st ->
  (if flag then _lastErrorTime st = None /\ _lastErrorTime st' <> None
   else _lastErrorTime st <> None /\ _lastErrorTime st' = None) ->
  toggles true st'.
Proof.
  intros (Hk & Ha & Hf & Hl) He Hx Hk' Hl'. unfold toggles.
  rewrite He, reconnectFlags_app, Hx, Hk', length_app. simpl.
  split; [assumption |]. specialize (Hl eq_refl).
  rewrite alternates_snoc, Nat.add_1_r, Nat.even_succ, <- Nat.negb_even.
  destruct (Nat.even (List.length (reconnectFlags (effects st)))) eqn:E;
    destruct flag; simpl; destruct Hl' as [H1 H2]; destruct Hl as [Hl1 Hl2].
  - split; [auto |]. split; [discriminate |]. intros _.
    split; [intros H; contradiction | discriminate].
  - exfalso. apply H1. apply Hl2. reflexivity.
  - specialize (Hl1 H1). discriminate.
  - split; [auto |]. split; [discriminate |]. intros _. split; auto.
Qed.

Lemma toggles_updateState callback st :
  toggles callback st -> toggles callback (stateOf (_updateState st)).
Proof.
  intros Hinv.
  destruct (updateState_shape st)
    as (Hl & Hk & _ & _ & resolved & opened & He & Hr & Hcase).
  destruct (resolutions_silent _ Hr) as (_ & _ & Hrr).
  apply (toggles_quiet callback st _ (resolved ++ opened)); auto.
  - rewrite reconnectFlags_app, Hrr. simpl.
    destruct Hcase as [(-> & _) | (r & _ & _ & ->)]; [reflexivity |].
    destruct (_currentConnection st); reflexivity.
  - intros _. rewrite Hl. tauto.
Qed.

Lemma handle_toggles callback e st :
  toggles callback st -> toggles callback (handle e st).
Proof.
  intros Hinv. pose proof Hinv as (Hcb & _ & _ & Hlast).
  destruct e as [s error now | s chunk | r id now | err id]; simpl.
  - unfold onError.
    destruct (_currentConnection st) as [c|] eqn:Hc; [| assumption].
    destruct (negb (Nat.eqb s (stream c))); [assumption |].
    rewrite Hcb.
    destruct callback; destruct (_lastErrorTime st) as [t|] eqn:Hl;
      [ | | destruct (now - t <? 100) | ].
    + apply toggles_updateState.
      eapply (toggles_quiet true st);
        [ eassumption | history | reflexivity | reflexivity | ].
      intros _. simpl. rewrite Hl. split; discriminate.
    + apply toggles_updateState.
      eapply (toggles_told true st);
        [ eassumption | history | reflexivity | reflexivity | ].
      simpl. split; [assumption | discriminate].
    + simpl. eapply (toggles_quiet false st);
        [ eassumption | history | | reflexivity | discriminate ].
      apply rejections_silent. reflexivity.
    + apply toggles_updateState.
      eapply (toggles_quiet false st);
        [ eassumption | history | reflexivity | reflexivity | discriminate ].
    + apply toggles_updateState.
      eapply (toggles_quiet false st);
        [ eassumption | history | reflexivity | reflexivity | discriminate ].
  - unfold onData.
    destruct (_currentConnection st) as [c|] eqn:Hc; [| assumption].
    destruct (Nat.eqb_spec s (stream c)) as [-> |]; [| assumption]. simpl.
    apply toggles_updateState.
    destruct (_lastErrorTime st) eqn:Hl; simpl; rewrite ?Hcb;
      destruct callback; simpl;
      match goal with
      | |- context [hasData ?b ?x ?y] => destruct (hasData b x y)
      end;
      first
        [ eapply (toggles_told false st);
          [ eassumption | history | reflexivity | reflexivity
          | simpl; rewrite Hl; split; [discriminate | reflexivity] ]
        | eapply (toggles_quiet _ st);
          [ eassumption | history | reflexivity | reflexivity
          | first [ discriminate | intros _; simpl; tauto ] ] ].
  - unfold readOpened. destruct (sizeOf st) as [err | n]; simpl.
    + eapply (toggles_quiet _ st);
        [ eassumption | history | reflexivity | reflexivity | tauto ].
    + destruct (range_end r >? n); simpl.
      * eapply (toggles_quiet _ st);
          [ eassumption | history | reflexivity | reflexivity | tauto ].
      * assert (H : toggles callback
                      (stateOf (_updateState
                         (set_readRequests
                            (_readRequests st ++ [mkReadRequest r id now]) st)))).
        { apply toggles_updateState.
          eapply (toggles_quiet _ st);
            [ eassumption | history | reflexivity | reflexivity | tauto ]. }
        destruct (_updateState _) as [st' | e st']; simpl in *; [assumption |].
        eapply (toggles_quiet _ st');
          [ eassumption | history | reflexivity | reflexivity | tauto ].
  - eapply (toggles_quiet _ st);
      [ eassumption | history | reflexivity | reflexivity | tauto ].
Qed.

Lemma handleAll_toggles callback evs : forall st,
  toggles callback st -> toggles callback (handleAll evs st).
Proof.
  induction evs as [|e evs IH]; simpl; intros st H; [assumption |].
  apply IH, handle_toggles, H.
Qed.

Lemma open_toggles fileSize cacheSize callback :
  toggles callback (open fileSize (constructor cacheSize callback)).
Proof.
  destruct (open_fields fileSize (constructor cacheSize callback))
    as (_ & _ & Hl & Hk & _).
  unfold toggles. rewrite Hl, Hk.
  destruct (open_effects fileSize (constructor cacheSize callback)) as [-> | ->];
    simpl; repeat split; auto.
Qed.

(** *** The connection's bookkeeping *)






(** *** The requests [_updateState] answers *)

Lemma resolveRequests_partition requests : forall buffer lastEnd kept out lastEnd' buffer',
  resolveRequests buffer requests lastEnd = (kept, out, lastEnd', buffer') ->
  Permutation (map request requests) (map request kept ++ resolvedRequests out).
Proof.
  induction requests as [|r rest IH]; simpl; intros buffer lastEnd kept out lastEnd' buffer' H.
  - injection H as <- <- _ _. constructor.
  - destruct (negb (hasData buffer _ _)).
    + destruct (resolveRequests buffer rest lastEnd) as [[[k o] l] b] eqn:E.
      injection H as <- <- _ _. simpl. constructor. eapply IH, E.
    + destruct (slice buffer _ _) as [data buffer1].
      destruct (resolveRequests buffer1 rest _) as [[[k o] l] b] eqn:E.
      injection H as <- <- _ _. simpl.
      apply Permutation_cons_app. eapply IH, E.
Qed.

(** X12.  At most one stream is open.  Whatever an opened reader has been
    through, every stream it fetched and has not destroyed is the current
    connection's ([fetch] being taken to answer a new stream each time). *)
Theorem one_stream_at_a_time cacheSize callback fileSize evs s :
  let st := readerAfter cacheSize callback fileSize evs in
  In s (fetchedStreams (effects st)) ->
  ~ In s (destroyedStreams (effects st)) ->
  exists c, _currentConnection st = Some c /\ stream c = s.
Proof.
  intros st Hin Hnot.
  destruct (handleAll_oneConnection evs _
              (open_oneConnection fileSize cacheSize callback))
    as (_ & _ & _ & _ & Hlive).
  destruct (Hlive s Hin) as [Hd | Hc]; [contradiction | exact Hc].
Qed.

(** X13.  A stream that was destroyed is never listened to again: its late
    data and errors leave the reader as it is. *)
Theorem destroyed_stream_is_ignored cacheSize callback fileSize evs s :
  let st := readerAfter cacheSize callback fileSize evs in
  In s (destroyedStreams (effects st)) ->
  (forall chunk, handle (StreamData s chunk) st = st) /\
  (forall error now, handle (StreamError s error now) st = st).
Proof.
  intros st Hin.
  destruct (handleAll_oneConnection evs _
              (open_oneConnection fileSize cacheSize callback))
    as (_ & _ & _ & Hcur & _).
  fold (readerAfter cacheSize callback fileSize evs) in Hcur. fold st in Hcur.
  assert (Hstale : forall c, _currentConnection st = Some c ->
                             negb (Nat.eqb s (stream c)) = true).
  { intros c Hc. destruct (Nat.eqb_spec s (stream c)) as [-> |]; [| reflexivity].
    destruct (Hcur c Hc) as [_ Hnot]. contradiction. }
  split; intros; simpl.
  - unfold onData. destruct (_currentConnection st) as [c|] eqn:Hc; [| reflexivity].
    rewrite (Hstale c eq_refl). reflexivity.
  - unfold onError. destruct (_currentConnection st) as [c|] eqn:Hc; [| reflexivity].
    rewrite (Hstale c eq_refl). reflexivity.
Qed.


(** X15.  The keep-reconnecting callback is told [true] and [false] in turn,
    [true] first; a reader without a callback tells nothing; and with one,
    an error is on record exactly when the last thing told was [true]. *)
Theorem reconnect_flags_alternate cacheSize callback fileSize evs :
  let st := readerAfter cacheSize callback fileSize evs in
  alternates true (reconnectFlags (effects st)) /\
  (callback = false -> reconnectFlags (effects st) = []) /\
  (callback = true ->
   (_lastErrorTime st <> None <->
    last (reconnectFlags (effects st)) false = true)).
Proof.
  intros st.
  destruct (handleAll_toggles callback evs _
              (open_toggles fileSize cacheSize callback))
    as (_ & Ha & Hf & Hl).
  fold (readerAfter cacheSize callback fileSize evs) in Ha, Hf, Hl.
  fold st in Ha, Hf, Hl.
  split; [exact Ha |]. split; [exact Hf |].
  intros Hc. specialize (Hl Hc).
  destruct (reconnectFlags (effects st)) as [|x l] using rev_ind.
  - simpl in *. split; [intros H; exfalso; apply H, Hl; reflexivity | discriminate].
  - rewrite last_last. apply alternates_snoc in Ha as [_ Hx].
    rewrite length_app, Nat.add_1_r, Nat.even_succ, <- Nat.negb_even in Hl.
    simpl in Hl. subst x.
    destruct (Nat.even (List.length l)); simpl in *.
    + split; [reflexivity |]. intros _ H. apply Hl in H. discriminate.
    + split; [| discriminate]. intros H. exfalso. apply H, Hl. reflexivity.
Qed.


(** X17.  [_updateState] loses no request.  On a reader that is not closed
    each pending request is afterwards still pending or has been resolved,
    once; nothing is rejected. *)
Theorem updateState_keeps_or_resolves st :
  _closed st = false ->
  exists answered,
    effects (stateOf (_updateState st)) = effects st ++ answered /\
    forallb (fun e => negb (isRejection e)) answered = true /\
    Permutation (map request (_readRequests st))
                (map request (_readRequests (stateOf (_updateState st)))
                 ++ resolvedRequests answered).
Proof.
  intros Hc. unfold _updateState. rewrite Hc.
  destruct (resolveRequests _ _ _) as [[[kept out] lastEnd] buffer] eqn:E.
  pose proof (resolveRequests_resolves _ _ _ _ _ _ _ E) as Hout.
  pose proof (resolveRequests_partition _ _ _ _ _ _ _ E) as Hperm.
  assert (Hrej : forallb (fun e => negb (isRejection e)) out = true).
  { clear - Hout. induction out as [|e out IH]; simpl in *; [reflexivity |].
    apply andb_true_iff in Hout as [He Ho]. rewrite (IH Ho).
    destruct e; try discriminate He. reflexivity. }
  unfold sizeOf. simpl. destruct (_fileSize st) as [n|]; simpl.
  - destruct (getNewConnection _) as [r|]; simpl.
    + unfold _setConnection. simpl.
      destruct (_currentConnection st) as [c|]; simpl.
      * exists (out ++ [Destroyed (stream c);
                        Fetched (nextStream st) (range_start r)
                                (range_end r - range_start r)]).
        split; [rewrite <- !app_assoc; reflexivity |].
        split; [rewrite forallb_app, Hrej; reflexivity |].
        unfold resolvedRequests. rewrite flat_map_app. simpl.
        rewrite app_nil_r. exact Hperm.
      * exists (out ++ [Fetched (nextStream st) (range_start r)
                                (range_end r - range_start r)]).
        split; [rewrite <- !app_assoc; reflexivity |].
        split; [rewrite forallb_app, Hrej; reflexivity |].
        unfold resolvedRequests. rewrite flat_map_app. simpl.
        rewrite app_nil_r. exact Hperm.
    + exists out. auto.
  - exists out. auto.
Qed.

End Reader.

#[local] Existing Instance stubCollaborators.

Lemma one_stream_at_a_time_witness :
  let st := readerAfter None false 1000 sampleHistory in
  fetchedStreams (effects st) = [0; 1]%nat /\
  destroyedStreams (effects st) = [0%nat] /\
  exists c, _currentConnection st = Some c /\ stream c = 1%nat.
Proof.
  split; [vm_compute; reflexivity |]. split; [vm_compute; reflexivity |].
  apply (one_stream_at_a_time None false 1000 sampleHistory 1%nat).
  - vm_compute. auto.
  - vm_compute. intros [H | []]. discriminate H.
Defined.

(** The stand-in policy is one of section 4.2's. *)
Lemma stub_reconnectsPending : reconnectsPending.
Proof.
  intros o Hc Hr. simpl. rewrite Hc. exact Hr.
Qed.

Lemma destroyed_stream_is_ignored_witness :
  let st := readerAfter None false 1000 sampleHistory in
  In 0%nat (destroyedStreams (effects st)) /\
  (forall chunk, handle (StreamData 0 chunk) st = st) /\
  (forall error now, handle (StreamError 0 error now) st = st).
Proof.
  assert (H : In 0%nat (destroyedStreams
                          (effects (readerAfter None false 1000 sampleHistory))))
    by (vm_compute; auto).
  split; [exact H |].
  exact (destroyed_stream_is_ignored None false 1000 sampleHistory 0%nat H).
Defined.



Lemma updateState_keeps_or_resolves_witness :
  let st := readerAfter None false 1000 sampleHistory in
  _closed st = false /\
  exists answered,
    effects (stateOf (_updateState st)) = effects st ++ answered /\
    forallb (fun e => negb (isRejection e)) answered = true /\
    Permutation (map request (_readRequests st))
                (map request (_readRequests (stateOf (_updateState st)))
                 ++ resolvedRequests answered).
Proof.
  assert (H : _closed (readerAfter None false 1000 sampleHistory) = false)
    by (vm_compute; reflexivity).
  split; [exact H |].
  exact (updateState_keeps_or_resolves _ H).
Defined.

End FilelikeMore.

